(** * Ralph Wiggum loop: completion matcher, prompt builders, loop drivers

    A shallow embedding of [ralph.ts] (the external, process-spawning driver)
    and of [.opencode/plugin/ralph-wiggum.ts] (the in-host, event-driven
    driver), with the properties of the iteration state machine proved
    about it.

    Conventions of the embedding:
    - a JavaScript string is the list of its UTF-16 code units ([N]);
    - a JavaScript number that the drivers use as a counter or as an exit
      code is an integer ([Z]); its [String(...)] rendering is the decimal
      one, which is what JavaScript prints for every integer below 10^21;
    - the Unicode upper-case table used by case-insensitive matching belongs
      to the JavaScript runtime, not to this repository: it is a parameter
      ([toUpperCase]) of everything that depends on it;
    - file-system calls succeed, and each is one step: what another process
      could observe while a call is in progress is outside the model; the
      state file either holds a record that [JSON.stringify] wrote or a
      text [JSON.parse] rejects;
    - the agent, git and the host session are the environment: a run of the
      external driver consumes a list of scripted answers, one per pass of
      its loop, and the in-host handler is cut at its only [await];
    - console output and the interrupt handler are not modelled. *)

From Stdlib Require Import List ZArith NArith Bool Ascii String Lia.
From Stdlib Require Import DecimalPos.
Import ListNotations.

Set Implicit Arguments.

(** ** JavaScript strings *)

Module JS.

Definition char := N.
Definition jsstring := list char.

(** An ASCII literal of the source, as code units. *)
Definition lit (s : string) : jsstring :=
  map N_of_ascii (list_ascii_of_string s).

Definition nl : jsstring := [10%N].

(** WhiteSpace and LineTerminator code points: what [\s] and
    [String.prototype.trim] recognise. *)
Definition whiteSpaceChars : list char :=
  [9; 10; 11; 12; 13; 32; 160; 5760;
   8192; 8193; 8194; 8195; 8196; 8197; 8198; 8199; 8200; 8201; 8202;
   8232; 8233; 8239; 8287; 12288; 65279]%N.

Definition isWhiteSpace (c : char) : bool :=
  existsb (N.eqb c) whiteSpaceChars.

(** [String.prototype.trim] *)
Fixpoint trimStart (s : jsstring) : jsstring :=
  match s with
  | [] => []
  | c :: s' => if isWhiteSpace c then trimStart s' else s
  end.

Definition trimEnd (s : jsstring) : jsstring := rev (trimStart (rev s)).

Definition trim (s : jsstring) : jsstring := trimEnd (trimStart s).

(** [String.prototype.startsWith] and [String.prototype.includes] *)
Fixpoint startsWith (t p : jsstring) : bool :=
  match p, t with
  | [], _ => true
  | _ :: _, [] => false
  | a :: p', b :: t' => N.eqb a b && startsWith t' p'
  end.

Fixpoint includes (t p : jsstring) : bool :=
  startsWith t p ||
  match t with
  | [] => false
  | _ :: t' => includes t' p
  end.

(** [s.substring(0, n)] for [0 <= n] *)
Definition substring0 (s : jsstring) (n : nat) : jsstring := firstn n s.

(** Truthiness of a possibly undefined string: [undefined] and the empty
    string are falsy. *)
Definition truthy (o : option jsstring) : bool :=
  match o with
  | Some (_ :: _) => true
  | _ => false
  end.

(** [a || b] on possibly undefined strings *)
Definition orElse (a b : option jsstring) : option jsstring :=
  if truthy a then a else b.

(** Decimal digits of a [Decimal.uint], most significant first. *)
Fixpoint uintChars (d : Decimal.uint) : jsstring :=
  match d with
  | Decimal.Nil => []
  | Decimal.D0 d => 48%N :: uintChars d
  | Decimal.D1 d => 49%N :: uintChars d
  | Decimal.D2 d => 50%N :: uintChars d
  | Decimal.D3 d => 51%N :: uintChars d
  | Decimal.D4 d => 52%N :: uintChars d
  | Decimal.D5 d => 53%N :: uintChars d
  | Decimal.D6 d => 54%N :: uintChars d
  | Decimal.D7 d => 55%N :: uintChars d
  | Decimal.D8 d => 56%N :: uintChars d
  | Decimal.D9 d => 57%N :: uintChars d
  end.

(** [String(n)] (template interpolation [${n}]) of an integer *)
Definition numberToString (n : Z) : jsstring :=
  match Z.to_int n with
  | Decimal.Pos d => uintChars d
  | Decimal.Neg d => 45%N :: uintChars d
  end.

(** Equality of strings ([===]) *)
Fixpoint strEq (a b : jsstring) : bool :=
  match a, b with
  | [], [] => true
  | x :: a', y :: b' => N.eqb x y && strEq a' b'
  | _, _ => false
  end.

(** [parseInt(s)] with no radix argument; [None] is NaN.  Leading white
    space is skipped, a sign is read, a [0x] or [0X] prefix selects radix
    16, and the longest prefix of digits is the value. *)
Definition digitValue (radix : N) (c : char) : option N :=
  let v :=
    if N.leb 48 c && N.leb c 57 then Some (c - 48)%N
    else if N.leb 97 c && N.leb c 122 then Some (c - 87)%N
    else if N.leb 65 c && N.leb c 90 then Some (c - 55)%N
    else None in
  match v with
  | Some d => if N.ltb d radix then Some d else None
  | None => None
  end.

Fixpoint leadingDigits (radix : N) (s : jsstring) : list N :=
  match s with
  | [] => []
  | c :: s' =>
      match digitValue radix c with
      | Some d => d :: leadingDigits radix s'
      | None => []
      end
  end.

Definition digitsValue (radix : N) (ds : list N) : N :=
  fold_left (fun a d => a * radix + d)%N ds 0%N.

Definition parseInt (s : jsstring) : option Z :=
  let s1 := trimStart s in
  let '(negative, s2) :=
    match s1 with
    | c :: r =>
        if N.eqb c 45 then (true, r)
        else if N.eqb c 43 then (false, r)
        else (false, s1)
    | [] => (false, s1)
    end in
  let '(radix, s3) :=
    match s2 with
    | z :: x :: r =>
        if N.eqb z 48 && (N.eqb x 120 || N.eqb x 88) then (16%N, r)
        else (10%N, s2)
    | _ => (10%N, s2)
    end in
  match leadingDigits radix s3 with
  | [] => None
  | ds =>
      let n := Z.of_N (digitsValue radix ds) in
      Some (if negative then (- n)%Z else n)
  end.

(** The specification's reading of "t contains s". *)
Definition contains (t s : jsstring) : Prop :=
  exists pre post, t = pre ++ s ++ post.

End JS.

Import JS.

(** ** The regular expressions that the source builds

    [new RegExp(source, "i")] is modelled for the fragment of the pattern
    grammar the drivers use: pattern characters, the class escape [\s], an
    identity escape of a syntax character and the quantifier [*]; the
    wildcard [.] is included so that the effect of escaping can be
    observed.  Any other construct makes [parsePattern] answer [None]. *)

Module RegExp.

Inductive atom : Type :=
| AChar (c : char)      (* a pattern character or an identity escape *)
| AClassSpace           (* \s *)
| ADot.                 (* . *)

Inductive term : Type :=
| TAtom (a : atom)
| TStar (a : atom).     (* a* *)

Definition regex := list term.

(** SyntaxCharacter of the pattern grammar: [^ $ \ . * + ? ( ) [ ] { } |] *)
Definition syntaxChars : list char :=
  [94; 36; 92; 46; 42; 43; 63; 40; 41; 91; 93; 123; 125; 124]%N.

Definition isSyntaxChar (c : char) : bool := existsb (N.eqb c) syntaxChars.

Definition backslash : char := 92%N.
Definition star : char := 42%N.
Definition dot : char := 46%N.

(** LineTerminator code points, which [.] does not match. *)
Definition isLineTerminator (c : char) : bool :=
  existsb (N.eqb c) [10; 13; 8232; 8233]%N.

(** The atom denoted by [\e]. *)
Definition escapeAtom (e : char) : option atom :=
  if N.eqb e 115%N then Some AClassSpace
  else if isSyntaxChar e then Some (AChar e)
  else None.

Definition consTerm (t : term) (r : option regex) : option regex :=
  option_map (cons t) r.

Fixpoint parsePattern (s : jsstring) : option regex :=
  match s with
  | [] => Some []
  | c :: rest =>
      if N.eqb c backslash then
        match rest with
        | [] => None
        | e :: rest1 =>
            match escapeAtom e with
            | None => None
            | Some a =>
                match rest1 with
                | q :: rest2 =>
                    if N.eqb q star then consTerm (TStar a) (parsePattern rest2)
                    else consTerm (TAtom a) (parsePattern rest1)
                | [] => consTerm (TAtom a) (parsePattern rest1)
                end
            end
        end
      else if isSyntaxChar c && negb (N.eqb c dot) then None
      else
        let a := if N.eqb c dot then ADot else AChar c in
        match rest with
        | q :: rest2 =>
            if N.eqb q star then consTerm (TStar a) (parsePattern rest2)
            else consTerm (TAtom a) (parsePattern rest)
        | [] => consTerm (TAtom a) (parsePattern rest)
        end
  end.

Section Matcher.

(** [String.prototype.toUpperCase] on a one-code-unit string. *)
Variable toUpperCase : char -> jsstring.

(** Canonicalize of the pattern semantics, without the [u] flag. *)
Definition canonicalize (ch : char) : char :=
  match toUpperCase ch with
  | [cu] => if N.leb 128 ch && N.ltb cu 128 then ch else cu
  | _ => ch
  end.

Definition atomMatches (ignoreCase : bool) (a : atom) (ch : char) : bool :=
  match a with
  | AChar c =>
      if ignoreCase then N.eqb (canonicalize c) (canonicalize ch)
      else N.eqb c ch
  | AClassSpace =>
      if ignoreCase
      then existsb (fun w => N.eqb (canonicalize w) (canonicalize ch))
                   whiteSpaceChars
      else isWhiteSpace ch
  | ADot => negb (isLineTerminator ch)
  end.

(** Does [r] match a prefix of the input?  [test] only reports whether a
    match exists, so the order in which the backtracking search tries the
    repetitions of a starred atom is not observable. *)
Fixpoint matchHere (ic : bool) (r : regex) : jsstring -> bool :=
  match r with
  | [] => fun _ => true
  | TAtom a :: r' =>
      fun t =>
        match t with
        | [] => false
        | ch :: t' => atomMatches ic a ch && matchHere ic r' t'
        end
  | TStar a :: r' =>
      fix loop (t : jsstring) : bool :=
        matchHere ic r' t ||
        match t with
        | [] => false
        | ch :: t' => atomMatches ic a ch && loop t'
        end
  end.

(** Is there a match starting at some index of the input? *)
Fixpoint matchAnywhere (ic : bool) (r : regex) (t : jsstring) : bool :=
  matchHere ic r t ||
  match t with
  | [] => false
  | _ :: t' => matchAnywhere ic r t'
  end.

(** [new RegExp(source, ignoreCase ? "i" : "").test(input)]; [None] when
    the pattern is outside the modelled fragment. *)
Definition test (source : jsstring) (ignoreCase : bool) (input : jsstring)
  : option bool :=
  option_map (fun r => matchAnywhere ignoreCase r input) (parsePattern source).

End Matcher.

End RegExp.

(** ** Completion matcher (both drivers have the same two functions) *)

(** [str.replace(/[.*+?^${}()|[\]\\]/g, "\\$&")] *)
Definition escapedChars : list char :=
  [46; 42; 43; 63; 94; 36; 123; 125; 40; 41; 124; 91; 93; 92]%N.

Definition needsEscape (c : char) : bool := existsb (N.eqb c) escapedChars.

Definition escapeRegex (str : jsstring) : jsstring :=
  flat_map (fun c => if needsEscape c then [RegExp.backslash; c] else [c]) str.

(** The template [`<promise>\\s*${escapeRegex(promise)}\\s*</promise>`] *)
Definition promisePatternSource (promise : jsstring) : jsstring :=
  lit "<promise>" ++ lit "\s*" ++ escapeRegex promise ++ lit "\s*"
    ++ lit "</promise>".

Section CaseTable.

Variable toUpperCase : char -> jsstring.

Definition checkCompletion (output promise : jsstring) : bool :=
  match RegExp.test toUpperCase (promisePatternSource promise) true output with
  | Some b => b
  | None => false
  end.

End CaseTable.

(** ** Persisted loop state *)

(** The [RalphState] interface of the two drivers.  The plugin's interface
    has the optional fields; the external driver always writes [model] and
    never writes [sessionId] or [lastOutput]. *)
Module State.

Record RalphState : Type := {
  active : bool;
  iteration : Z;
  maxIterations : Z;
  completionPromise : jsstring;
  prompt : jsstring;
  startedAt : jsstring;
  sessionId : option jsstring;
  model : option jsstring;
  lastOutput : option jsstring
}.

(** [state.iteration = n] *)
Definition withIteration (n : Z) (s : RalphState) : RalphState :=
  {| active := active s; iteration := n; maxIterations := maxIterations s;
     completionPromise := completionPromise s; prompt := prompt s;
     startedAt := startedAt s; sessionId := sessionId s; model := model s;
     lastOutput := lastOutput s |}.

(** [state.lastOutput = text] *)
Definition withLastOutput (text : jsstring) (s : RalphState) : RalphState :=
  {| active := active s; iteration := iteration s;
     maxIterations := maxIterations s;
     completionPromise := completionPromise s; prompt := prompt s;
     startedAt := startedAt s; sessionId := sessionId s; model := model s;
     lastOutput := Some text |}.

End State.

Import State.

(** What [.opencode/ralph-loop.state.json] holds. *)
Inductive fileContent : Type :=
| Unparsable (raw : jsstring)   (* JSON.parse throws *)
| Json (s : RalphState).        (* JSON.stringify(s, null, 2) *)

Record disk : Type := {
  stateDirExists : bool;
  stateFile : option fileContent
}.

(** Calls that leave the process, in the order they are made. *)
Inductive event : Type :=
| EvMkdir                                     (* mkdirSync(stateDir) *)
| EvWriteState (s : RalphState)               (* writeFileSync(statePath, ..) *)
| EvUnlink                                    (* unlinkSync(statePath) *)
| EvWriteFilteredConfig                       (* ralph-opencode.no-plugins.json *)
| EvSpawn (argv : list jsstring) (filteredConfig : bool) (* Bun.spawn *)
| EvGit (command : jsstring)                  (* $`git ...` *)
| EvSleep (ms : Z)                            (* setTimeout *)
| EvSessionPrompt (session text : jsstring).  (* client.session.prompt *)

Record world : Type := {
  fs : disk;
  trace : list event
}.

(** A state monad over the part of the world a driver acts on. *)
Definition M (S A : Type) : Type := S -> A * S.

Definition ret {S A : Type} (a : A) : M S A := fun w => (a, w).

Definition bind {S A B : Type} (m : M S A) (k : A -> M S B) : M S B :=
  fun w => let r := m w in k (fst r) (snd r).

Declare Scope monad_scope.
Delimit Scope monad_scope with monad.
Notation "x <- m ;; k" := (bind m (fun x => k))
  (at level 61, m at next level, right associativity) : monad_scope.
Notation "m ;; k" := (bind m (fun _ => k))
  (at level 61, right associativity) : monad_scope.
Local Open Scope monad_scope.

Definition emit (e : event) : M world unit :=
  fun w => (tt, {| fs := fs w; trace := trace w ++ [e] |}).

Definition getDisk : M world disk := fun w => (fs w, w).

Definition setDisk (d : disk) : M world unit :=
  fun w => (tt, {| fs := d; trace := trace w |}).

(** The three state-file functions.  The two drivers resolve the same path
    (the plugin from its [directory], the external driver from
    [process.cwd()]) and their bodies agree. *)
Definition saveState (state : RalphState) : M world unit :=
  d <- getDisk ;;
  (if stateDirExists d then ret tt
   else emit EvMkdir ;;
        setDisk {| stateDirExists := true; stateFile := stateFile d |}) ;;
  d' <- getDisk ;;
  emit (EvWriteState state) ;;
  setDisk {| stateDirExists := stateDirExists d';
             stateFile := Some (Json state) |}.

Definition loadState : M world (option RalphState) :=
  d <- getDisk ;;
  ret match stateFile d with
      | None => None
      | Some (Unparsable _) => None
      | Some (Json s) => Some s
      end.

Definition clearState : M world unit :=
  d <- getDisk ;;
  match stateFile d with
  | None => ret tt
  | Some _ =>
      emit EvUnlink ;;
      setDisk {| stateDirExists := stateDirExists d; stateFile := None |}
  end.

(** [existingState?.active], [!state || !state.active] *)
Definition isActive (o : option RalphState) : bool :=
  match o with
  | Some s => active s
  | None => false
  end.

(** The iteration footer shared by the two prompt templates:
    [${state.maxIterations > 0 ? ` / ${state.maxIterations}` : " (unlimited)"}] *)
Definition iterationLimit (state : RalphState) : jsstring :=
  if (0 <? maxIterations state)%Z
  then lit " / " ++ numberToString (maxIterations state)
  else lit " (unlimited)".

(** The max-iterations test of both drivers:
    [maxIterations > 0 && state.iteration > maxIterations] *)
Definition maxIterationsReached (maxIter iter : Z) : bool :=
  (0 <? maxIter)%Z && (maxIter <? iter)%Z.

(** ** The external driver: [ralph.ts] *)

Module External.

(** The option variables that the argument loop fills. *)
Record options : Type := {
  prompt : jsstring;
  maxIterations : Z;
  completionPromise : jsstring;
  model : jsstring;
  autoCommit : bool;
  disablePlugins : bool
}.

(** The argument loop at the top of the script.  [--help], [-h],
    [--version] and [-v] anywhere among the arguments end the process with
    status 0 before the loop is entered. *)
Inductive parsed : Type :=
| ParseExit (code : Z)
| Parsed (o : options).

Definition defaults : options :=
  {| prompt := []; maxIterations := 0; completionPromise := lit "COMPLETE";
     model := []; autoCommit := true; disablePlugins := false |}.

Definition setMaxIterations (n : Z) (o : options) : options :=
  {| prompt := prompt o; maxIterations := n;
     completionPromise := completionPromise o; model := model o;
     autoCommit := autoCommit o; disablePlugins := disablePlugins o |}.

Definition setCompletionPromise (v : jsstring) (o : options) : options :=
  {| prompt := prompt o; maxIterations := maxIterations o;
     completionPromise := v; model := model o;
     autoCommit := autoCommit o; disablePlugins := disablePlugins o |}.

Definition setModel (v : jsstring) (o : options) : options :=
  {| prompt := prompt o; maxIterations := maxIterations o;
     completionPromise := completionPromise o; model := v;
     autoCommit := autoCommit o; disablePlugins := disablePlugins o |}.

Definition setAutoCommit (b : bool) (o : options) : options :=
  {| prompt := prompt o; maxIterations := maxIterations o;
     completionPromise := completionPromise o; model := model o;
     autoCommit := b; disablePlugins := disablePlugins o |}.

Definition setDisablePlugins (b : bool) (o : options) : options :=
  {| prompt := prompt o; maxIterations := maxIterations o;
     completionPromise := completionPromise o; model := model o;
     autoCommit := autoCommit o; disablePlugins := b |}.

Definition setPrompt (v : jsstring) (o : options) : options :=
  {| prompt := v; maxIterations := maxIterations o;
     completionPromise := completionPromise o; model := model o;
     autoCommit := autoCommit o; disablePlugins := disablePlugins o |}.

(** [promptParts.join(" ")] *)
Fixpoint join (parts : list jsstring) : jsstring :=
  match parts with
  | [] => []
  | [p] => p
  | p :: rest => p ++ lit " " ++ join rest
  end.

(** The [for] loop over [args]; [promptParts] is kept in order. *)
Fixpoint parseLoop (args : list jsstring) (o : options)
  (promptParts : list jsstring) : parsed :=
  match args with
  | [] =>
      match join promptParts with
      | [] => ParseExit 1
      | p => Parsed (setPrompt p o)
      end
  | arg :: rest =>
      if strEq arg (lit "--max-iterations") then
        match rest with
        | [] => ParseExit 1
        | val :: rest' =>
            match val with
            | [] => ParseExit 1
            | _ :: _ =>
                match parseInt val with
                | None => ParseExit 1
                | Some n => parseLoop rest' (setMaxIterations n o) promptParts
                end
            end
        end
      else if strEq arg (lit "--completion-promise") then
        match rest with
        | [] => ParseExit 1
        | val :: rest' =>
            match val with
            | [] => ParseExit 1
            | _ :: _ => parseLoop rest' (setCompletionPromise val o) promptParts
            end
        end
      else if strEq arg (lit "--model") then
        match rest with
        | [] => ParseExit 1
        | val :: rest' =>
            match val with
            | [] => ParseExit 1
            | _ :: _ => parseLoop rest' (setModel val o) promptParts
            end
        end
      else if strEq arg (lit "--no-commit") then
        parseLoop rest (setAutoCommit false o) promptParts
      else if strEq arg (lit "--no-plugins") then
        parseLoop rest (setDisablePlugins true o) promptParts
      else if startsWith arg (lit "-") then ParseExit 1
      else parseLoop rest o (promptParts ++ [arg])
  end.

Definition parseArgs (args : list jsstring) : parsed :=
  if existsb (strEq (lit "--help")) args || existsb (strEq (lit "-h")) args
  then ParseExit 0
  else if existsb (strEq (lit "--version")) args
          || existsb (strEq (lit "-v")) args
  then ParseExit 0
  else parseLoop args defaults [].

(** The pieces of the template literal of [buildPrompt], between the line
    break that follows the opening back-quote and the one that precedes the
    closing back-quote. *)
Definition promptTemplate (state : RalphState) : list jsstring :=
  [ lit "# Ralph Wiggum Loop - Iteration "; numberToString (iteration state); nl;
    nl;
    lit "You are in an iterative development loop. Work on the task below until you can genuinely complete it."; nl;
    nl;
    lit "## Your Task"; nl;
    nl;
    State.prompt state; nl;
    nl;
    lit "## Instructions"; nl;
    nl;
    lit "1. Read the current state of files to understand what's been done"; nl;
    lit "2. Make progress on the task"; nl;
    lit "3. Run tests/verification if applicable"; nl;
    lit "4. When the task is GENUINELY COMPLETE, output:"; nl;
    lit "   <promise>"; State.completionPromise state; lit "</promise>"; nl;
    nl;
    lit "## Critical Rules"; nl;
    nl;
    lit "- ONLY output <promise>"; State.completionPromise state;
      lit "</promise> when the task is truly done"; nl;
    lit "- Do NOT lie or output false promises to exit the loop"; nl;
    lit "- If stuck, try a different approach"; nl;
    lit "- Check your work before claiming completion"; nl;
    lit "- The loop will continue until you succeed"; nl;
    nl;
    lit "## Current Iteration: "; numberToString (iteration state);
      iterationLimit state; nl;
    nl;
    lit "Now, work on the task. Good luck!" ].

(** [buildPrompt] *)
Definition buildPrompt (state : RalphState) : jsstring :=
  trim (nl ++ List.concat (promptTemplate state) ++ nl).

(** [detectPlaceholderPluginError] *)
Definition detectPlaceholderPluginError (output : jsstring) : bool :=
  includes output
    (lit "ralph-wiggum is not yet ready for use. This is a placeholder package.").

(** What one pass of the loop body receives from outside the process. *)
Inductive agentRun : Type :=
| AgentExited (stdout stderr : jsstring) (exitCode : Z)
| SpawnThrew.                    (* Bun.spawn or a stream read threw *)

Record iterationEnv : Type := {
  agent : agentRun;
  gitStatus : option jsstring;   (* None: `git status --porcelain` threw *)
  gitAddOk : bool                (* false: `git add -A` threw *)
}.

(** How a run of [runRalphLoop] ends, or where it waits. *)
Inductive outcome : Type :=
| Exit (code : Z)                (* process.exit(code) *)
| Returned                       (* the loop was left by break *)
| AwaitingAgent (state : RalphState). (* the scripted environment ran out *)

(** The exit status of the process: a driver that returns from
    [runRalphLoop] has nothing left to run and ends with status 0. *)
Definition exitStatus (o : outcome) : option Z :=
  match o with
  | Exit c => Some c
  | Returned => Some 0%Z
  | AwaitingAgent _ => None
  end.

Section Driver.

Variable toUpperCase : char -> jsstring.
Variable opts : options.

(** [ensureFilteredPluginsConfig]: makes the directory if needed and
    writes the filtered plugin list next to the state file. *)
Definition ensureFilteredPluginsConfig : M world unit :=
  d <- getDisk ;;
  (if stateDirExists d then ret tt
   else emit EvMkdir ;;
        setDisk {| stateDirExists := true; stateFile := stateFile d |}) ;;
  emit EvWriteFilteredConfig.

(** The argument vector given to [Bun.spawn]. *)
Definition spawnArgv (fullPrompt : jsstring) : list jsstring :=
  [lit "opencode"; lit "run"]
    ++ (if truthy (Some (model opts)) then [lit "-m"; model opts] else [])
    ++ [fullPrompt].

(** The text of the commit command:
    [git commit -m "Ralph iteration ${state.iteration}: work in progress"] *)
Definition commitCommand (state : RalphState) : jsstring :=
  lit "git commit -m " ++ [34%N] ++ lit "Ralph iteration "
    ++ numberToString (iteration state) ++ lit ": work in progress"
    ++ [34%N].

(** The auto-commit block; every failure inside it is swallowed. *)
Definition autoCommitStep (state : RalphState) (env : iterationEnv)
  : M world unit :=
  if autoCommit opts then
    emit (EvGit (lit "git status --porcelain")) ;;
    match gitStatus env with
    | None => ret tt
    | Some status =>
        match trim status with
        | [] => ret tt
        | _ :: _ =>
            emit (EvGit (lit "git add -A")) ;;
            if gitAddOk env then emit (EvGit (commitCommand state))
            else ret tt
        end
    end
  else ret tt.

(** The [while (true)] loop; one element of the script is consumed by each
    pass through the body. *)
Fixpoint mainLoop (script : list iterationEnv) (state : RalphState)
  : M world outcome :=
  if maxIterationsReached (maxIterations opts) (iteration state) then
    clearState ;; ret Returned
  else
    match script with
    | [] => ret (AwaitingAgent state)
    | env :: script' =>
        let fullPrompt := buildPrompt state in
        (if disablePlugins opts then ensureFilteredPluginsConfig else ret tt) ;;
        emit (EvSpawn (spawnArgv fullPrompt) (disablePlugins opts)) ;;
        match agent env with
        | SpawnThrew =>
            let state' := withIteration (iteration state + 1) state in
            saveState state' ;;
            emit (EvSleep 2000) ;;
            mainLoop script' state'
        | AgentExited result stderr exitCode =>
            if detectPlaceholderPluginError stderr
               || detectPlaceholderPluginError result then
              clearState ;; ret (Exit 1)
            else if negb (exitCode =? 0)%Z then
              clearState ;; ret (Exit exitCode)
            else if checkCompletion toUpperCase result (completionPromise opts)
            then
              clearState ;; ret Returned
            else
              autoCommitStep state env ;;
              let state' := withIteration (iteration state + 1) state in
              saveState state' ;;
              emit (EvSleep 1000) ;;
              mainLoop script' state'
        end
    end.

(** The record [runRalphLoop] creates. *)
Definition initialState (now : jsstring) : RalphState :=
  {| active := true;
     iteration := 1;
     State.maxIterations := maxIterations opts;
     State.completionPromise := completionPromise opts;
     State.prompt := prompt opts;
     startedAt := now;
     sessionId := None;
     State.model := Some (model opts);
     lastOutput := None |}.

(** [runRalphLoop]; [now] is [new Date().toISOString()]. *)
Definition runRalphLoop (now : jsstring) (script : list iterationEnv)
  : M world outcome :=
  existingState <- loadState ;;
  if isActive existingState then ret (Exit 1)
  else
    let state := initialState now in
    saveState state ;;
    mainLoop script state.

End Driver.

End External.

(** ** The in-host driver: [.opencode/plugin/ralph-wiggum.ts] *)

Module Plugin.

(** The pieces of the template literal of [buildIterationPrompt]. *)
Definition iterationPromptTemplate (state : RalphState) : list jsstring :=
  [ lit "# Ralph Wiggum Loop - Iteration "; numberToString (iteration state); nl;
    nl;
    lit "You are in an iterative development loop. Work on the task below until completion."; nl;
    nl;
    lit "## Your Task"; nl;
    nl;
    prompt state; nl;
    nl;
    lit "## Instructions"; nl;
    nl;
    lit "1. Read the current state of files to understand what's been done"; nl;
    lit "2. Make progress on the task"; nl;
    lit "3. Run tests/verification if applicable"; nl;
    lit "4. When the task is GENUINELY COMPLETE, output:"; nl;
    lit "   <promise>"; completionPromise state; lit "</promise>"; nl;
    nl;
    lit "## Critical Rules"; nl;
    nl;
    lit "- ONLY output <promise>"; completionPromise state;
      lit "</promise> when the task is truly done"; nl;
    lit "- Do NOT lie or output false promises to exit the loop"; nl;
    lit "- If stuck, try a different approach"; nl;
    lit "- Check your work before claiming completion"; nl;
    nl;
    lit "## Current Iteration: "; numberToString (iteration state);
      iterationLimit state; nl;
    nl;
    lit "Now, continue working on the task." ].

(** [buildIterationPrompt] *)
Definition buildIterationPrompt (state : RalphState) : jsstring :=
  List.concat (iterationPromptTemplate state).

(** The closure variable [isProcessing] together with the world. *)
Record instance : Type := {
  isProcessing : bool;
  host : world
}.

Definition liftW {A : Type} (m : M world A) : M instance A :=
  fun i => let r := m (host i) in
           (fst r, {| isProcessing := isProcessing i; host := snd r |}).

Definition getProcessing : M instance bool :=
  fun i => (isProcessing i, i).

Definition setProcessing (b : bool) : M instance unit :=
  fun i => (tt, {| isProcessing := b; host := host i |}).

(** A part of an assistant message: [{type, text}]. *)
Record part : Type := {
  partType : jsstring;
  partText : option jsstring
}.

Inductive content : Type :=
| ContentString (s : jsstring)
| ContentParts (parts : list part)
| ContentMissing                  (* undefined or null *)
| ContentOther.                   (* any other truthy value *)

(** The host events the handler distinguishes. *)
Inductive hostEvent : Type :=
| SessionIdle (eventSessionId : option jsstring)
| MessageUpdated (role : option jsstring) (body : content)
| OtherEvent.

(** Where the asynchronous handler stands when it gives control back:
    finished, or suspended in [await client.session.prompt(...)]. *)
Inductive progress : Type :=
| Finished
| AwaitingPrompt.

(** [msg.content] is truthy *)
Definition contentTruthy (c : content) : bool :=
  match c with
  | ContentString s => truthy (Some s)
  | ContentParts _ => true
  | ContentMissing => false
  | ContentOther => true
  end.

(** The text extracted from [msg.content]. *)
Definition textContent (c : content) : jsstring :=
  match c with
  | ContentString s => s
  | ContentParts parts =>
      List.concat
        (map (fun p => match orElse (partText p) (Some []) with
                       | Some t => t
                       | None => []
                       end)
             (filter (fun p => strEq (partType p) (lit "text")) parts))
  | _ => []
  end.

Section Handlers.

Variable toUpperCase : char -> jsstring.

(** [client?.session?.prompt] is defined *)
Variable clientCanPrompt : bool.

(** The [message.updated] branch of [event]. *)
Definition onMessageUpdated (role : option jsstring) (body : content)
  : M instance unit :=
  o <- liftW loadState ;;
  match o with
  | None => ret tt
  | Some state =>
      if active state then
        if match role with
           | Some r => strEq r (lit "assistant")
           | None => false
           end && contentTruthy body
        then
          let text := textContent body in
          if truthy (Some text)
             && checkCompletion toUpperCase text (completionPromise state)
          then liftW (saveState (withLastOutput text state))
          else ret tt
        else ret tt
      else ret tt
  end.

(** [state.lastOutput && checkCompletion(state.lastOutput,
    state.completionPromise)] *)
Definition lastOutputCompletes (state : RalphState) : bool :=
  match lastOutput state with
  | Some out =>
      truthy (Some out)
      && checkCompletion toUpperCase out (completionPromise state)
  | None => false
  end.

(** The [session.idle] branch of [event], up to the first suspension. *)
Definition onSessionIdle (eventSessionId : option jsstring)
  : M instance progress :=
  o <- liftW loadState ;;
  match o with
  | None => ret Finished
  | Some state =>
      if negb (active state) then ret Finished
      else if lastOutputCompletes state
      then liftW clearState ;; ret Finished
      else if maxIterationsReached (maxIterations state) (iteration state)
      then liftW clearState ;; ret Finished
      else
        match orElse eventSessionId (sessionId state) with
        | Some (c :: sid) =>
            if clientCanPrompt then
              setProcessing true ;;
              let state' := withIteration (iteration state + 1) state in
              liftW (saveState state') ;;
              liftW (emit (EvSessionPrompt (c :: sid)
                             (buildIterationPrompt state'))) ;;
              ret AwaitingPrompt
            else ret Finished
        | _ => ret Finished
        end
  end.

(** [event]: the handler from its call to its first suspension. *)
Definition event (ev : hostEvent) : M instance progress :=
  match ev with
  | SessionIdle eventSessionId =>
      processing <- getProcessing ;;
      if processing then ret Finished
      else onSessionIdle eventSessionId
  | MessageUpdated role body =>
      onMessageUpdated role body ;; ret Finished
  | OtherEvent => ret Finished
  end.


End Handlers.

(** The arguments of the [ralph_start] tool. *)
Record startArgs : Type := {
  argPrompt : jsstring;
  argMaxIterations : option Z;
  argCompletionPromise : option jsstring
}.

(** The outcome of [ralph_start]: the text returned to the host. *)
Definition alreadyActiveMessage (existingState : RalphState) : jsstring :=
  lit "Ralph loop already active at iteration "
    ++ numberToString (iteration existingState)
    ++ lit ". Use ralph_cancel to stop it first.".

Definition startedMessage (state : RalphState) (args : startArgs) : jsstring :=
  List.concat [
    [55357; 56580]%N; lit " Ralph loop started!"; nl;
    lit "Iteration: 1"; nl;
    lit "Max iterations: ";
      (if (0 <? maxIterations state)%Z
       then numberToString (maxIterations state) else lit "unlimited"); nl;
    lit "Completion promise: "; completionPromise state; nl;
    nl;
    lit "The loop will continue after each session idle until you output:"; nl;
    lit "<promise>"; completionPromise state; lit "</promise>"; nl;
    nl;
    lit "Now working on: "; substring0 (argPrompt args) 100;
      (if Nat.ltb 100 (List.length (argPrompt args)) then lit "..." else []) ].

(** The record [ralph_start] creates: [args.maxIterations || 0] and
    [args.completionPromise || "COMPLETE"]. *)
Definition newState (now : jsstring) (args : startArgs) : RalphState :=
  {| active := true;
     iteration := 1;
     maxIterations := match argMaxIterations args with
                      | Some n => n
                      | None => 0
                      end;
     completionPromise :=
       match orElse (argCompletionPromise args) None with
       | Some p => p
       | None => lit "COMPLETE"
       end;
     prompt := argPrompt args;
     startedAt := now;
     sessionId := None;
     model := None;
     lastOutput := None |}.

(** [ralph_start.execute]; [now] is [new Date().toISOString()]. *)
Definition ralph_start (now : jsstring) (args : startArgs)
  : M world jsstring :=
  existingState <- loadState ;;
  match existingState with
  | Some existing =>
      if active existing then ret (alreadyActiveMessage existing)
      else
        let state := newState now args in
        saveState state ;; ret (startedMessage state args)
  | None =>
      let state := newState now args in
      saveState state ;; ret (startedMessage state args)
  end.

(** [ralph_cancel.execute] *)
Definition ralph_cancel : M world jsstring :=
  o <- loadState ;;
  match o with
  | Some state =>
      if active state then
        clearState ;;
        ret ([55357; 57041]%N ++ lit " Cancelled Ralph loop at iteration "
               ++ numberToString (iteration state))
      else ret (lit "No active Ralph loop to cancel")
  | None => ret (lit "No active Ralph loop to cancel")
  end.

End Plugin.

(** ** Definitions used to state the properties *)

(** A relational reading of the matcher: [matches ic r s] holds when the
    whole of [s] is matched by [r]. *)
Module RegExpSem.
Import RegExp.
Section Sem.
Variable toUpperCase : char -> jsstring.
Variable ic : bool.

Inductive matches : regex -> jsstring -> Prop :=
| matches_nil : matches [] []
| matches_atom a r ch s :
    atomMatches toUpperCase ic a ch = true -> matches r s ->
    matches (TAtom a :: r) (ch :: s)
| matches_star_done a r s :
    matches r s -> matches (TStar a :: r) s
| matches_star_more a r ch s :
    atomMatches toUpperCase ic a ch = true -> matches (TStar a :: r) s ->
    matches (TStar a :: r) (ch :: s).

(** The expression that matches the characters of [m] in turn. *)
Definition chars (m : jsstring) : regex := map (fun c => TAtom (AChar c)) m.
End Sem.
End RegExpSem.

Import RegExp RegExpSem.

(** The expression that [promisePatternSource] denotes. *)
Definition promiseRegex (m : jsstring) : regex :=
  chars (lit "<promise>") ++ [TStar AClassSpace] ++ chars m
    ++ [TStar AClassSpace] ++ chars (lit "</promise>").

(** A case table that knows the letters of Basic Latin only; every other
    code unit is its own upper case. *)
Definition asciiUpper (c : char) : jsstring :=
  if N.leb 97 c && N.leb c 122 then [(c - 32)%N] else [c].

Section CompletionSpec.
Variable toUpperCase : char -> jsstring.

(** [b] is [a] up to the case of its characters. *)
Definition sameIgnoringCase (a b : jsstring) : Prop :=
  Forall2 (fun x y => canonicalize toUpperCase x = canonicalize toUpperCase y) a b.

(** "Optional white space": a possibly empty run of white-space characters. *)
Definition allWhiteSpace (s : jsstring) : Prop :=
  Forall (fun c => isWhiteSpace c = true) s.

(** [t] contains [<promise>], optional white space, the marker up to case,
    optional white space and [</promise>], the two tags being literal. *)
Definition promiseTagged (t m : jsstring) : Prop :=
  exists ws1 m' ws2,
    allWhiteSpace ws1 /\ sameIgnoringCase m m' /\ allWhiteSpace ws2 /\
    contains t (lit "<promise>" ++ ws1 ++ m' ++ ws2 ++ lit "</promise>").

(** The same, the two tags being compared up to case as the marker is. *)
Definition promiseTaggedAnyCase (t m : jsstring) : Prop :=
  exists open ws1 m' ws2 close,
    sameIgnoringCase (lit "<promise>") open /\
    allWhiteSpace ws1 /\ sameIgnoringCase m m' /\ allWhiteSpace ws2 /\
    sameIgnoringCase (lit "</promise>") close /\
    contains t (open ++ ws1 ++ m' ++ ws2 ++ close).

(** Only white space has the canonical form of a white-space character. *)
Definition caseKeepsWhiteSpace : Prop :=
  forall w ch, isWhiteSpace w = true ->
    canonicalize toUpperCase w = canonicalize toUpperCase ch ->
    isWhiteSpace ch = true.
End CompletionSpec.

(** The record a state file holds, as [loadState] reads it. *)
Definition stored (w : world) : option RalphState :=
  match stateFile (fs w) with
  | Some (Json s) => Some s
  | _ => None
  end.

(** The argument vectors of the agent processes spawned, in order. *)
Definition spawnOf (e : event) : option (list jsstring) :=
  match e with
  | EvSpawn argv _ => Some argv
  | _ => None
  end.

Fixpoint spawns (tr : list event) : list (list jsstring) :=
  match tr with
  | [] => []
  | e :: tr' =>
      match spawnOf e with
      | Some argv => argv :: spawns tr'
      | None => spawns tr'
      end
  end.

Definition isStateWrite (e : event) : bool :=
  match e with
  | EvWriteState _ => true
  | _ => false
  end.

Definition isGit (e : event) : bool :=
  match e with
  | EvGit _ => true
  | _ => false
  end.

(** The calls [saveState] makes before its write, and those of
    [clearState], on a disk [d]. *)
Definition mkdirEvents (d : disk) : list event :=
  if stateDirExists d then [] else [EvMkdir].

Definition unlinkEvents (d : disk) : list event :=
  match stateFile d with
  | Some _ => [EvUnlink]
  | None => []
  end.

(** Every state write among [evs] writes a record that satisfies [P]. *)
Definition writesOnly (P : RalphState -> Prop) (evs : list event) : Prop :=
  forall s, In (EvWriteState s) evs -> P s.

(** [s'] differs from [s] in [iteration] and [lastOutput] at most. *)
Definition differsOnlyInProgress (s s' : RalphState) : Prop :=
  active s' = active s /\ maxIterations s' = maxIterations s /\
  completionPromise s' = completionPromise s /\ prompt s' = prompt s /\
  startedAt s' = startedAt s /\ sessionId s' = sessionId s /\
  model s' = model s.




Module ExternalSpec.
Import External.

Section Defs.
Variable toUpperCase : char -> jsstring.
Variable opts : options.

(** A pass in which the agent exits with status 0, no stream holds the
    sentinel and the output is not a completion. *)
Definition uneventful (env : iterationEnv) : bool :=
  match agent env with
  | AgentExited result stderr exitCode =>
      negb (detectPlaceholderPluginError stderr
            || detectPlaceholderPluginError result)
      && (exitCode =? 0)%Z
      && negb (checkCompletion toUpperCase result (completionPromise opts))
  | SpawnThrew => false
  end.

(** The calls of [ensureFilteredPluginsConfig], when it is run. *)
Definition pluginsEvents (d : disk) : list event :=
  if disablePlugins opts then mkdirEvents d ++ [EvWriteFilteredConfig] else [].

(** The git commands of the auto-commit block. *)
Definition gitEvents (state : RalphState) (env : iterationEnv) : list event :=
  if autoCommit opts then
    EvGit (lit "git status --porcelain") ::
    match gitStatus env with
    | None => []
    | Some status =>
        match trim status with
        | [] => []
        | _ :: _ =>
            EvGit (lit "git add -A") ::
            (if gitAddOk env then [EvGit (commitCommand state)] else [])
        end
    end
  else [].

Definition spawnEvent (state : RalphState) : event :=
  EvSpawn (spawnArgv opts (buildPrompt state)) (disablePlugins opts).

(** [state.iteration++] *)
Definition nextState (state : RalphState) : RalphState :=
  withIteration (iteration state + 1) state.

(** The events of one pass through the loop body that ends in the
    [state.iteration++; saveState(state)] of the [try] block. *)
Definition iterationEvents (env : iterationEnv) (state : RalphState) (d : disk)
  : list event :=
  pluginsEvents d ++ [spawnEvent state] ++ gitEvents state env
    ++ (if disablePlugins opts then [] else mkdirEvents d)
    ++ [EvWriteState (nextState state); EvSleep 1000].

Definition savedDisk (state : RalphState) : disk :=
  {| stateDirExists := true; stateFile := Some (Json state) |}.

(** State, disk and events after a run of passes that all end in the
    [state.iteration++; saveState(state)] of the [try] block. *)
Fixpoint stateAfter (k : nat) (state : RalphState) : RalphState :=
  match k with
  | O => state
  | S k' => stateAfter k' (nextState state)
  end.

Fixpoint runEvents (envs : list iterationEnv) (state : RalphState) (d : disk)
  : list event :=
  match envs with
  | [] => []
  | env :: envs' =>
      iterationEvents env state d
        ++ runEvents envs' (nextState state) (savedDisk (nextState state))
  end.

Definition diskAfter (envs : list iterationEnv) (state : RalphState) (d : disk)
  : disk :=
  match envs with
  | [] => d
  | _ :: _ => savedDisk (stateAfter (List.length envs) state)
  end.

(** The [n] iteration numbers from [first] on. *)
Definition iterationNumbers (first : Z) (n : nat) : list Z :=
  map (fun j => (first + Z.of_nat j)%Z) (seq 0 n).
End Defs.

End ExternalSpec.

Module PluginSpec.
Import Plugin.

Section Defs.
Variable toUpperCase : char -> jsstring.
Variable clientCanPrompt : bool.

(** The idle branch, case by case. *)
Inductive idleCase (i : instance) (sid : option jsstring)
  : progress -> instance -> Prop :=
| idle_no_loop :
    isActive (stored (host i)) = false ->
    idleCase i sid Finished i
| idle_cleared s :
    stored (host i) = Some s -> active s = true ->
    lastOutputCompletes toUpperCase s = true
    \/ maxIterationsReached (maxIterations s) (iteration s) = true ->
    idleCase i sid Finished
      {| isProcessing := isProcessing i;
         host := {| fs := {| stateDirExists := stateDirExists (fs (host i));
                             stateFile := None |};
                    trace := trace (host i) ++ unlinkEvents (fs (host i)) |} |}
| idle_no_session s :
    stored (host i) = Some s -> active s = true ->
    lastOutputCompletes toUpperCase s = false ->
    maxIterationsReached (maxIterations s) (iteration s) = false ->
    truthy (orElse sid (sessionId s)) && clientCanPrompt = false ->
    idleCase i sid Finished i
| idle_continue s session :
    stored (host i) = Some s -> active s = true ->
    lastOutputCompletes toUpperCase s = false ->
    maxIterationsReached (maxIterations s) (iteration s) = false ->
    orElse sid (sessionId s) = Some session -> session <> [] ->
    clientCanPrompt = true ->
    idleCase i sid AwaitingPrompt
      {| isProcessing := true;
         host := {| fs := {| stateDirExists := true;
                             stateFile := Some (Json (withIteration (iteration s + 1) s)) |};
                    trace := trace (host i) ++ mkdirEvents (fs (host i))
                      ++ [EvWriteState (withIteration (iteration s + 1) s);
                          EvSessionPrompt session
                            (buildIterationPrompt (withIteration (iteration s + 1) s))] |} |}.

(** A record the handler may write when [i] is the instance it starts
    from. *)
Definition handlerWrite (i : instance) (s' : RalphState) : Prop :=
  exists s, stored (host i) = Some s /\
    (s' = withIteration (iteration s + 1) s
     \/ exists text, s' = withLastOutput text s).
End Defs.

End PluginSpec.

(** ** Concrete runs, used as instances of the theorems *)

Module Sample.

Definition threeIterations : External.options :=
  {| External.prompt := lit "Fix the auth bug";
     External.maxIterations := 3;
     External.completionPromise := lit "COMPLETE";
     External.model := [];
     External.autoCommit := true;
     External.disablePlugins := false |}.

Definition quietRun : External.iterationEnv :=
  {| External.agent := External.AgentExited (lit "still working") [] 0;
     External.gitStatus := Some (lit " M src/auth.ts");
     External.gitAddOk := true |}.

Definition failedRun : External.iterationEnv :=
  {| External.agent := External.AgentExited [] (lit "model not found") 1;
     External.gitStatus := None;
     External.gitAddOk := false |}.

Definition freshWorld : world :=
  {| fs := {| stateDirExists := false; stateFile := None |}; trace := [] |}.

Definition runningState : RalphState :=
  {| active := true;
     iteration := 2;
     maxIterations := 5;
     completionPromise := lit "COMPLETE";
     prompt := lit "Fix the auth bug";
     startedAt := lit "2025-01-01T00:00:00.000Z";
     sessionId := Some (lit "ses_1");
     model := None;
     lastOutput := None |}.

Definition runningWorld : world :=
  {| fs := {| stateDirExists := true; stateFile := Some (Json runningState) |};
     trace := [] |}.

Definition idleInstance : Plugin.instance :=
  {| Plugin.isProcessing := false; Plugin.host := runningWorld |}.

Definition startAgain : Plugin.startArgs :=
  {| Plugin.argPrompt := lit "Another task";
     Plugin.argMaxIterations := Some 10%Z;
     Plugin.argCompletionPromise := None |}.

End Sample.

(** ** Further functions of the two drivers *)

Module PluginTools.
Import Plugin.

(** The prompt excerpt of the tool messages:
    [${p.substring(0, 100)}${p.length > 100 ? "..." : ""}] *)
Definition excerpt (p : jsstring) : jsstring :=
  substring0 p 100 ++ (if Nat.ltb 100 (List.length p) then lit "..." else []).

(** What [ralph_status] returns while a loop is active. *)
Definition statusMessage (state : RalphState) : jsstring :=
  List.concat [
    [55357; 56580]%N; lit " Ralph loop active:"; nl;
    lit "- Iteration: "; numberToString (iteration state);
      iterationLimit state; nl;
    lit "- Completion promise: "; completionPromise state; nl;
    lit "- Started: "; startedAt state; nl;
    lit "- Prompt: "; excerpt (prompt state); nl;
    nl;
    lit "To complete, output: <promise>"; completionPromise state;
      lit "</promise>"; nl;
    lit "To cancel: use ralph_cancel tool" ].

(** [ralph_status.execute] *)
Definition ralph_status : M world jsstring :=
  o <- loadState ;;
  match o with
  | Some state =>
      if active state then ret (statusMessage state)
      else ret (lit "No active Ralph loop")
  | None => ret (lit "No active Ralph loop")
  end.

(** A message of [output.messages]; [msgRest] stands for the properties
    that the spread [{...msg}] copies. *)
Record chatMessage : Type := {
  msgRole : option jsstring;
  msgContent : content;
  msgRest : jsstring
}.

(** The banner of the [chat.message] hook. *)
Definition ralphContext (state : RalphState) : jsstring :=
  List.concat [
    lit "["; [55357; 56580]%N; lit " Ralph Loop Active - Iteration ";
      numberToString (iteration state);
      (if (0 <? maxIterations state)%Z
       then lit " / " ++ numberToString (maxIterations state) else []);
      lit "]"; nl;
    lit "[Complete by outputting: <promise>"; completionPromise state;
      lit "</promise>]" ].

(** The function mapped over [output.messages]. *)
Definition annotate (state : RalphState) (msg : chatMessage) : chatMessage :=
  match msgRole msg, msgContent msg with
  | Some r, ContentString s =>
      if strEq r (lit "user") then
        {| msgRole := msgRole msg;
           msgContent := ContentString (ralphContext state ++ nl ++ nl ++ s);
           msgRest := msgRest msg |}
      else msg
  | _, _ => msg
  end.

(** The ["chat.message"] hook; [None] is an [output.messages] that is
    missing or not an array. *)
Definition chat_message (messages : option (list chatMessage))
  : M world (option (list chatMessage)) :=
  o <- loadState ;;
  match o with
  | Some state =>
      if active state then
        match messages with
        | None => ret None
        | Some l => ret (Some (map (annotate state) l))
        end
      else ret messages
  | None => ret messages
  end.

End PluginTools.

Module ExternalTools.
Import External.

(** [Array.from(new Set(plugins))]: the elements of [plugins] in the order
    of their first occurrence; [seen] holds what the set already has. *)
Fixpoint setFrom (seen plugins : list jsstring) : list jsstring :=
  match plugins with
  | [] => []
  | p :: rest =>
      if existsb (strEq p) seen then setFrom seen rest
      else p :: setFrom (p :: seen) rest
  end.

(** The plugin list that [ensureFilteredPluginsConfig] writes, from what
    [loadPluginsFromConfig] returned for the user's and the project's
    configuration file. *)
Definition filtered (userPlugins projectPlugins : list jsstring)
  : list jsstring :=
  filter (fun p => negb (strEq p (lit "ralph-wiggum")))
         (setFrom [] (userPlugins ++ projectPlugins)).

End ExternalTools.

(** How one pass through the loop body of the external driver ends, read
    off the answer of the environment. *)
Module LoopSpec.
Import External ExternalSpec.

Inductive verdict : Type :=
| Stops (o : outcome)            (* clearState, then exit or break *)
| Continues (afterError : bool). (* iteration++, saveState, sleep *)

Section Defs.
Variable toUpperCase : char -> jsstring.
Variable opts : options.

Definition classify (env : iterationEnv) : verdict :=
  match agent env with
  | SpawnThrew => Continues true
  | AgentExited result stderr exitCode =>
      if detectPlaceholderPluginError stderr
         || detectPlaceholderPluginError result then Stops (Exit 1)
      else if negb (exitCode =? 0)%Z then Stops (Exit exitCode)
      else if checkCompletion toUpperCase result (completionPromise opts)
      then Stops Returned
      else Continues false
  end.

(** A pass after which the loop goes on. *)
Definition goesOn (env : iterationEnv) : bool :=
  match classify env with
  | Continues _ => true
  | Stops _ => false
  end.

(** The world once the agent has been spawned for [state]. *)
Definition afterSpawn (state : RalphState) (w : world) : world :=
  {| fs := if disablePlugins opts
           then {| stateDirExists := true; stateFile := stateFile (fs w) |}
           else fs w;
     trace := trace w ++ pluginsEvents opts (fs w) ++ [spawnEvent opts state] |}.

(** The world after [clearState]. *)
Definition cleared (w : world) : world :=
  {| fs := {| stateDirExists := stateDirExists (fs w); stateFile := None |};
     trace := trace w ++ unlinkEvents (fs w) |}.

(** The world at the end of a pass after which the loop goes on. *)
Definition afterPass (afterError : bool) (env : iterationEnv)
  (state : RalphState) (w : world) : world :=
  {| fs := savedDisk (nextState state);
     trace := trace (afterSpawn state w)
                ++ (if afterError then [] else gitEvents opts state env)
                ++ mkdirEvents (fs (afterSpawn state w))
                ++ [EvWriteState (nextState state);
                    EvSleep (if afterError then 2000 else 1000)] |}.

End Defs.

(** A pass in which spawning the agent, or reading its streams, threw. *)
Definition threw (env : External.iterationEnv) : bool :=
  match External.agent env with
  | External.SpawnThrew => true
  | External.AgentExited _ _ _ => false
  end.

(** The sentence that [detectPlaceholderPluginError] looks for. *)
Definition sentinel : jsstring :=
  lit "ralph-wiggum is not yet ready for use. This is a placeholder package.".

(** The records written to the state file, in order. *)
Definition writeOf (e : event) : option RalphState :=
  match e with
  | EvWriteState s => Some s
  | _ => None
  end.

Fixpoint writes (tr : list event) : list RalphState :=
  match tr with
  | [] => []
  | e :: tr' =>
      match writeOf e with
      | Some s => s :: writes tr'
      | None => writes tr'
      end
  end.

(** The events of a trace that are not git commands. *)
Definition withoutGit (tr : list event) : list event :=
  filter (fun e => negb (isGit e)) tr.

End LoopSpec.

(** The number of characters that an expression needs at least. *)
Fixpoint minLength (r : regex) : nat :=
  match r with
  | [] => 0
  | TAtom _ :: r' => S (minLength r')
  | TStar _ :: r' => minLength r'
  end.

(** [args.includes("--help") || args.includes("-h")], or the same for
    [--version] and [-v]. *)
Definition asksHelpOrVersion (args : list jsstring) : bool :=
  (existsb (strEq (lit "--help")) args || existsb (strEq (lit "-h")) args)
  || (existsb (strEq (lit "--version")) args
      || existsb (strEq (lit "-v")) args).

(** An argument that does not begin with a dash. *)
Definition isWord (arg : jsstring) : bool := negb (startsWith arg (lit "-")).

(** Further sample data. *)
Module Scenario.
Import Sample.

Definition now : jsstring := lit "2025-01-02T00:00:00.000Z".

Definition completedRun : External.iterationEnv :=
  {| External.agent :=
       External.AgentExited (lit "All done. <promise>COMPLETE</promise>") [] 0;
     External.gitStatus := Some [];
     External.gitAddOk := true |}.

Definition sentinelRun : External.iterationEnv :=
  {| External.agent :=
       External.AgentExited []
         (lit "Error: ralph-wiggum is not yet ready for use. This is a placeholder package.")
         0;
     External.gitStatus := Some [];
     External.gitAddOk := true |}.

Definition thrownRun : External.iterationEnv :=
  {| External.agent := External.SpawnThrew;
     External.gitStatus := None;
     External.gitAddOk := false |}.

Definition quietRunGitDown : External.iterationEnv :=
  {| External.agent := External.agent quietRun;
     External.gitStatus := None;
     External.gitAddOk := false |}.

Definition noCommit : External.options :=
  External.setAutoCommit false threeIterations.

Definition doneMessage : Plugin.content :=
  Plugin.ContentString (lit "All done. <promise>COMPLETE</promise>").



End Scenario.

(** * Proofs *)

Ltac step_bind :=
  match goal with
  | |- context [bind ?m ?k ?w] =>
      change (bind m k w) with (k (fst (m w)) (snd (m w))); cbv beta
  end.

(** ** The matcher *)

Section MatcherFacts.
Variable toUpperCase : char -> jsstring.
Variable ic : bool.
Abbreviation matches := (matches toUpperCase ic).
Abbreviation matchHere := (matchHere toUpperCase ic).
Abbreviation matchAnywhere := (matchAnywhere toUpperCase ic).
Abbreviation atomMatches := (atomMatches toUpperCase ic).

Lemma matchHere_star_eq a r t :
  matchHere (TStar a :: r) t =
  matchHere r t ||
  match t with
  | [] => false
  | ch :: t' => atomMatches a ch && matchHere (TStar a :: r) t'
  end.
Proof. destruct t; reflexivity. Qed.

Lemma matchHere_sound r : forall t,
  matchHere r t = true -> exists s rest, t = s ++ rest /\ matches r s.
Proof.
  induction r as [|[a|a] r IH]; intros t H.
  - exists [], t. split; [reflexivity|constructor].
  - destruct t as [|ch t]; [discriminate|]. cbn in H.
    apply andb_true_iff in H as [Ha Hr].
    destruct (IH _ Hr) as (s & rest & -> & Hm).
    exists (ch :: s), rest. split; [reflexivity|now constructor].
  - induction t as [|ch t IHt].
    + rewrite matchHere_star_eq in H. rewrite orb_false_r in H.
      destruct (IH _ H) as (s & rest & E & Hm).
      exists s, rest. split; [exact E|now constructor].
    + rewrite matchHere_star_eq in H. apply orb_true_iff in H as [H|H].
      * destruct (IH _ H) as (s & rest & E & Hm).
        exists s, rest. split; [exact E|now constructor].
      * apply andb_true_iff in H as [Ha Hr].
        destruct (IHt Hr) as (s & rest & -> & Hm).
        exists (ch :: s), rest. split; [reflexivity|now constructor].
Qed.

Lemma matchHere_complete r s :
  matches r s -> forall rest, matchHere r (s ++ rest) = true.
Proof.
  induction 1 as [|a r ch s Ha _ IH|a r s _ IH|a r ch s Ha _ IH]; intros rest.
  - reflexivity.
  - cbn. rewrite Ha. cbn. apply IH.
  - rewrite matchHere_star_eq, IH. reflexivity.
  - rewrite matchHere_star_eq. cbn [app]. rewrite Ha, IH.
    apply orb_true_r.
Qed.

Lemma matchAnywhere_eq r t :
  matchAnywhere r t =
  matchHere r t || match t with [] => false | _ :: t' => matchAnywhere r t' end.
Proof. destruct t; reflexivity. Qed.

Lemma matchAnywhere_iff r t :
  matchAnywhere r t = true <->
  exists pre s post, t = pre ++ s ++ post /\ matches r s.
Proof.
  split.
  - induction t as [|c t IH]; rewrite matchAnywhere_eq; intros H.
    + rewrite orb_false_r in H. destruct (matchHere_sound _ _ H) as (s & rest & E & Hm).
      exists [], s, rest. now split.
    + apply orb_true_iff in H as [H|H].
      * destruct (matchHere_sound _ _ H) as (s & rest & E & Hm).
        exists [], s, rest. now split.
      * destruct (IH H) as (pre & s & post & -> & Hm).
        exists (c :: pre), s, post. now split.
  - intros (pre & s & post & -> & Hm).
    induction pre as [|c pre IH]; rewrite matchAnywhere_eq.
    + cbn [app]. now rewrite (matchHere_complete Hm).
    + cbn [app]. rewrite IH. apply orb_true_r.
Qed.

Lemma matches_app_intro r1 s1 :
  matches r1 s1 -> forall r2 s2, matches r2 s2 -> matches (r1 ++ r2) (s1 ++ s2).
Proof.
  induction 1; intros r2 s2 H2; cbn [app]; try (constructor; auto; fail).
  - exact H2.
  - apply matches_star_more; auto. apply (IHmatches r2 s2 H2).
Qed.

Lemma matches_app_elim r s :
  matches r s -> forall r1 r2, r = r1 ++ r2 ->
  exists s1 s2, s = s1 ++ s2 /\ matches r1 s1 /\ matches r2 s2.
Proof.
  induction 1 as [|a r ch s Ha Hm IH|a r s Hm IH|a r ch s Ha Hm IH];
    intros r1 r2 E.
  - symmetry in E. apply app_eq_nil in E as [-> ->].
    exists [], []. repeat split; constructor.
  - destruct r1 as [|x r1]; cbn in E.
    + subst r2. exists [], (ch :: s). repeat split; now constructor.
    + injection E as <- ->.
      destruct (IH _ _ eq_refl) as (s1 & s2 & -> & H1 & H2).
      exists (ch :: s1), s2. repeat split; auto. now constructor.
  - destruct r1 as [|x r1]; cbn in E.
    + subst r2. exists [], s.
      split; [reflexivity|split; [constructor|now apply matches_star_done]].
    + injection E as <- ->.
      destruct (IH _ _ eq_refl) as (s1 & s2 & -> & H1 & H2).
      exists s1, s2. repeat split; auto. now constructor.
  - destruct r1 as [|x r1]; cbn in E.
    + subst r2. exists [], (ch :: s).
      split; [reflexivity|split; [constructor|now apply matches_star_more]].
    + injection E as <- ->.
      destruct (IH (TStar a :: r1) r2 eq_refl) as (s1 & s2 & -> & H1 & H2).
      exists (ch :: s1), s2. repeat split; auto. now apply matches_star_more.
Qed.

Lemma matches_app r1 r2 s :
  matches (r1 ++ r2) s <->
  exists s1 s2, s = s1 ++ s2 /\ matches r1 s1 /\ matches r2 s2.
Proof.
  split.
  - intros H. eapply matches_app_elim; eauto.
  - intros (s1 & s2 & -> & H1 & H2). now apply matches_app_intro.
Qed.

Lemma matches_chars m s :
  matches (chars m) s <->
  Forall2 (fun c ch => atomMatches (AChar c) ch = true) m s.
Proof.
  split.
  - revert s. induction m as [|c m IH]; intros s H; inversion H; subst.
    + constructor.
    + constructor; auto.
  - induction 1; cbn; constructor; auto.
Qed.

Lemma matches_star_only a s :
  matches [TStar a] s <-> Forall (fun ch => atomMatches a ch = true) s.
Proof.
  split.
  - remember [TStar a] as r eqn:E. induction 1; try discriminate.
    + injection E as -> ->. inversion H. constructor.
    + injection E as -> ->. constructor; auto.
  - induction 1.
    + apply matches_star_done. constructor.
    + apply matches_star_more; auto.
Qed.

End MatcherFacts.

(** Escaping and parsing *)

Lemma needsEscape_syntax c : needsEscape c = isSyntaxChar c.
Proof.
  apply eq_true_iff_eq. unfold needsEscape, isSyntaxChar.
  rewrite !existsb_exists.
  split; intros (x & Hin & Hx); exists x; (split; [|exact Hx]);
    cbn in Hin |- *; intuition.
Qed.

Lemma parsePattern_escape e rest1 :
  parsePattern (backslash :: e :: rest1) =
  match escapeAtom e with
  | None => None
  | Some a =>
      match rest1 with
      | q :: rest2 =>
          if N.eqb q star then consTerm (TStar a) (parsePattern rest2)
          else consTerm (TAtom a) (parsePattern rest1)
      | [] => consTerm (TAtom a) (parsePattern rest1)
      end
  end.
Proof. reflexivity. Qed.

Lemma parsePattern_plain c rest :
  isSyntaxChar c = false ->
  parsePattern (c :: rest) =
  match rest with
  | q :: rest2 =>
      if N.eqb q star then consTerm (TStar (AChar c)) (parsePattern rest2)
      else consTerm (TAtom (AChar c)) (parsePattern rest)
  | [] => consTerm (TAtom (AChar c)) (parsePattern rest)
  end.
Proof.
  intros Hc. cbn [parsePattern]. rewrite Hc. cbn [andb].
  assert (Hb : N.eqb c backslash = false).
  { destruct (N.eqb_spec c backslash) as [->|]; [discriminate Hc|reflexivity]. }
  assert (Hd : N.eqb c dot = false).
  { destruct (N.eqb_spec c dot) as [->|]; [discriminate Hc|reflexivity]. }
  rewrite Hb, Hd. reflexivity.
Qed.

Lemma not_quantified (rest : jsstring) (X : jsstring -> option regex)
  (Y : option regex) :
  hd_error rest <> Some star ->
  match rest with
  | q :: rest2 => if N.eqb q star then X rest2 else Y
  | [] => Y
  end = Y.
Proof.
  destruct rest as [|q rest]; [reflexivity|]. cbn. intros H.
  destruct (N.eqb_spec q star) as [->|]; [now elim H|reflexivity].
Qed.

Lemma escaped_head m : forall rest,
  hd_error rest <> Some star ->
  hd_error (escapeRegex m ++ rest) <> Some star.
Proof.
  destruct m as [|c m]; intros rest H; [exact H|].
  unfold escapeRegex. cbn [flat_map].
  destruct (needsEscape c) eqn:Hc; cbn; [discriminate|].
  intros E. injection E as ->. discriminate Hc.
Qed.

Lemma parse_escaped m : forall rest r,
  hd_error rest <> Some star ->
  parsePattern rest = Some r ->
  parsePattern (escapeRegex m ++ rest) = Some (chars m ++ r).
Proof.
  induction m as [|c m IH]; intros rest r Hhd Hr; [exact Hr|].
  pose proof (escaped_head m _ Hhd) as Htail.
  specialize (IH _ _ Hhd Hr).
  change (escapeRegex (c :: m)) with
    ((if needsEscape c then [backslash; c] else [c]) ++ escapeRegex m).
  rewrite <- app_assoc.
  destruct (needsEscape c) eqn:Hc; cbn [app].
  - rewrite parsePattern_escape.
    assert (Hs : escapeAtom c = Some (AChar c)).
    { unfold escapeAtom. rewrite <- needsEscape_syntax, Hc.
      destruct (N.eqb_spec c 115) as [->|]; [discriminate Hc|reflexivity]. }
    rewrite Hs.
    rewrite (not_quantified _ (fun rest2 => consTerm (TStar (AChar c)) (parsePattern rest2))) by exact Htail.
    rewrite IH. reflexivity.
  - rewrite parsePattern_plain by (rewrite <- needsEscape_syntax; exact Hc).
    rewrite (not_quantified _ (fun rest2 => consTerm (TStar (AChar c)) (parsePattern rest2))) by exact Htail.
    rewrite IH. reflexivity.
Qed.

Lemma parse_open_tag tail :
  parsePattern (lit "<promise>" ++ lit "\s*" ++ tail) =
  option_map (app (chars (lit "<promise>") ++ [TStar AClassSpace]))
             (parsePattern tail).
Proof.
  change (lit "<promise>" ++ lit "\s*" ++ tail)
    with (60 :: 112 :: 114 :: 111 :: 109 :: 105 :: 115 :: 101 :: 62
             :: backslash :: 115 :: star :: tail)%N.
  do 9 (rewrite parsePattern_plain by reflexivity; cbn [N.eqb Pos.eqb star]).
  rewrite parsePattern_escape. cbn [escapeAtom N.eqb Pos.eqb star].
  destruct (parsePattern tail); reflexivity.
Qed.

Lemma promisePattern_parses m :
  parsePattern (promisePatternSource m) = Some (promiseRegex m).
Proof.
  unfold promisePatternSource. rewrite parse_open_tag.
  rewrite (parse_escaped m (lit "\s*" ++ lit "</promise>")
             (r := [TStar AClassSpace] ++ chars (lit "</promise>")));
    [reflexivity|discriminate|reflexivity].
Qed.

Section CompletionFacts.
Variable toUpperCase : char -> jsstring.
Abbreviation canon := (canonicalize toUpperCase).
Abbreviation matchesI := (matches toUpperCase true).

Lemma chars_same_case m s :
  matchesI (chars m) s <-> sameIgnoringCase toUpperCase m s.
Proof.
  rewrite matches_chars. unfold sameIgnoringCase.
  split; apply Forall2_impl; intros a b; cbn; apply N.eqb_eq.
Qed.

Lemma isWhiteSpace_In c : isWhiteSpace c = true <-> In c whiteSpaceChars.
Proof.
  unfold isWhiteSpace. rewrite existsb_exists. split.
  - intros (x & Hin & E). apply N.eqb_eq in E. now subst.
  - intros H. exists c. split; [exact H|apply N.eqb_refl].
Qed.

Lemma spaceClass_complete ch :
  isWhiteSpace ch = true ->
  atomMatches toUpperCase true AClassSpace ch = true.
Proof.
  intros H. unfold atomMatches. apply existsb_exists. exists ch.
  split; [now apply isWhiteSpace_In|apply N.eqb_refl].
Qed.

Lemma spaceClass_sound ch :
  caseKeepsWhiteSpace toUpperCase ->
  atomMatches toUpperCase true AClassSpace ch = true ->
  isWhiteSpace ch = true.
Proof.
  intros Hws H. unfold atomMatches in H.
  apply existsb_exists in H as (w & Hin & E).
  apply N.eqb_eq in E. apply (Hws w ch); [now apply isWhiteSpace_In|exact E].
Qed.

Lemma star_space_complete s :
  allWhiteSpace s -> matchesI [TStar AClassSpace] s.
Proof.
  intros H. apply matches_star_only.
  revert H. apply Forall_impl. exact spaceClass_complete.
Qed.

Lemma star_space_sound s :
  caseKeepsWhiteSpace toUpperCase ->
  matchesI [TStar AClassSpace] s -> allWhiteSpace s.
Proof.
  intros Hws H. apply matches_star_only in H.
  revert H. apply Forall_impl. intros ch. now apply spaceClass_sound.
Qed.

Lemma promiseRegex_complete m op ws1 m' ws2 cl :
  sameIgnoringCase toUpperCase (lit "<promise>") op ->
  allWhiteSpace ws1 -> sameIgnoringCase toUpperCase m m' ->
  allWhiteSpace ws2 ->
  sameIgnoringCase toUpperCase (lit "</promise>") cl ->
  matchesI (promiseRegex m) (op ++ ws1 ++ m' ++ ws2 ++ cl).
Proof.
  intros Ho H1 Hm H2 Hc. unfold promiseRegex.
  repeat apply matches_app_intro;
    auto using star_space_complete; now apply chars_same_case.
Qed.

Lemma promiseRegex_sound m s :
  caseKeepsWhiteSpace toUpperCase ->
  matchesI (promiseRegex m) s ->
  exists op ws1 m' ws2 cl,
    s = op ++ ws1 ++ m' ++ ws2 ++ cl /\
    sameIgnoringCase toUpperCase (lit "<promise>") op /\
    allWhiteSpace ws1 /\ sameIgnoringCase toUpperCase m m' /\
    allWhiteSpace ws2 /\
    sameIgnoringCase toUpperCase (lit "</promise>") cl.
Proof.
  intros Hws H. unfold promiseRegex in H.
  apply matches_app in H as (op & s1 & -> & Ho & H).
  apply matches_app in H as (ws1 & s2 & -> & H1 & H).
  apply matches_app in H as (m' & s3 & -> & Hm & H).
  apply matches_app in H as (ws2 & cl & -> & H2 & Hc).
  exists op, ws1, m', ws2, cl.
  repeat split; try (now apply chars_same_case);
    now apply star_space_sound.
Qed.

Lemma checkCompletion_regex t m :
  checkCompletion toUpperCase t m
  = matchAnywhere toUpperCase true (promiseRegex m) t.
Proof.
  unfold checkCompletion, test. now rewrite promisePattern_parses.
Qed.

(** C1, as amended.  For a case table that folds nothing but white space
    onto white space (which holds of Unicode), [checkCompletion t m] is
    true exactly when [t] contains the opening tag, optional white space,
    the marker [m], optional white space and the closing tag, where the
    marker is read as literal text and the marker and both tags are
    compared without regard to case: the [i] flag applies to the whole
    pattern, not to the marker alone. *)
Theorem checkCompletion_tagged_any_case t m
  (Hws : caseKeepsWhiteSpace toUpperCase) :
  checkCompletion toUpperCase t m = true <->
  promiseTaggedAnyCase toUpperCase t m.
Proof.
  rewrite checkCompletion_regex, matchAnywhere_iff. split.
  - intros (pre & s & post & -> & H).
    destruct (promiseRegex_sound Hws H)
      as (op & ws1 & m' & ws2 & cl & -> & Ho & H1 & Hm & H2 & Hc).
    exists op, ws1, m', ws2, cl. repeat (split; [assumption|]).
    exists pre, post. reflexivity.
  - intros (op & ws1 & m' & ws2 & cl & Ho & H1 & Hm & H2 & Hc & pre & post & ->).
    exists pre, (op ++ ws1 ++ m' ++ ws2 ++ cl), post.
    split; [reflexivity|now apply promiseRegex_complete].
Qed.
End CompletionFacts.

Lemma includes_complete p : forall pre post,
  includes (pre ++ p ++ post) p = true.
Proof.
  assert (Hs : forall q post, startsWith (q ++ post) q = true).
  { induction q as [|a q IH]; intros post; [now destruct post|].
    cbn. now rewrite N.eqb_refl, IH. }
  assert (Hi : forall t, includes t p = startsWith t p ||
                 match t with [] => false | _ :: t' => includes t' p end).
  { now destruct t. }
  induction pre as [|c pre IH]; intros post; rewrite Hi.
  - cbn [app]. now rewrite Hs.
  - cbn [app]. rewrite IH. apply orb_true_r.
Qed.

Lemma asciiUpper_keeps_whiteSpace : caseKeepsWhiteSpace asciiUpper.
Proof.
  intros w ch Hw E. apply isWhiteSpace_In in Hw.
  assert (Hc : forall c, canonicalize asciiUpper c
                 = if N.leb 97 c && N.leb c 122 then (c - 32)%N else c).
  { intros c. unfold canonicalize, asciiUpper.
    destruct (N.leb 97 c && N.leb c 122) eqn:Hr.
    - apply andb_true_iff in Hr as [H1 H2].
      apply N.leb_le in H1. apply N.leb_le in H2.
      destruct (N.leb_spec 128 c); [lia|reflexivity].
    - destruct (N.leb 128 c && N.ltb c 128); reflexivity. }
  rewrite !Hc in E.
  assert (Hw' : N.leb 97 w && N.leb w 122 = false).
  { cbn in Hw. repeat (destruct Hw as [<-|Hw]; [reflexivity|]). destruct Hw. }
  rewrite Hw' in E. subst w.
  destruct (N.leb 97 ch && N.leb ch 122) eqn:Hr.
  - apply andb_true_iff in Hr as [H1 H2].
    apply N.leb_le in H1. apply N.leb_le in H2.
    exfalso. cbn in Hw.
    repeat (destruct Hw as [Hw|Hw]; [lia|]). exact Hw.
  - now apply isWhiteSpace_In.
Qed.

(** C1, counterexample to the claim as stated: the text
    [<PROMISE>x</PROMISE>] is accepted for the marker [x], although it does
    not contain the substring [<promise>]. *)
Lemma checkCompletion_upper_case_tags :
  checkCompletion asciiUpper (lit "<PROMISE>x</PROMISE>") (lit "x") = true /\
  ~ promiseTagged asciiUpper (lit "<PROMISE>x</PROMISE>") (lit "x").
Proof.
  split; [reflexivity|].
  intros (ws1 & m' & ws2 & _ & _ & _ & pre & post & E).
  assert (H : includes (lit "<PROMISE>x</PROMISE>") (lit "<promise>") = true).
  { rewrite E, <- app_assoc. apply includes_complete. }
  discriminate H.
Qed.

Lemma checkCompletion_tagged_any_case_witness :
  caseKeepsWhiteSpace asciiUpper /\
  (checkCompletion asciiUpper (lit "ok <Promise> done </PROMISE>") (lit "DONE") = true <->
   promiseTaggedAnyCase asciiUpper (lit "ok <Promise> done </PROMISE>") (lit "DONE")).
Proof.
  split; [exact asciiUpper_keeps_whiteSpace|].
  apply (checkCompletion_tagged_any_case (toUpperCase := asciiUpper)).
  exact asciiUpper_keeps_whiteSpace.
Defined.

(** The marker [a.b*c] is matched as text: the same input is accepted by
    the unescaped pattern, where [.] and [*] are operators, and rejected by
    the matcher. *)
Example escaped_marker_is_literal :
  checkCompletion asciiUpper (lit "<promise>a.b*c</promise>") (lit "a.b*c") = true /\
  checkCompletion asciiUpper (lit "<promise>axbbc</promise>") (lit "a.b*c") = false /\
  RegExp.test asciiUpper (lit "<promise>\s*a.b*c\s*</promise>") true
    (lit "<promise>axbbc</promise>") = Some true.
Proof. repeat split; reflexivity. Qed.

(** ** The prompt builders *)

Lemma trimStart_keeps a s :
  isWhiteSpace a = false -> trimStart (a :: s) = a :: s.
Proof. intros H. cbn [trimStart]. now rewrite H. Qed.

Lemma trimStart_skips a s :
  isWhiteSpace a = true -> trimStart (a :: s) = trimStart s.
Proof. intros H. cbn [trimStart]. now rewrite H. Qed.

Lemma trimEnd_line_break s b :
  isWhiteSpace b = false -> trimEnd ((s ++ [b]) ++ nl) = s ++ [b].
Proof.
  intros H. unfold trimEnd, nl. rewrite !rev_app_distr. cbn [rev app].
  rewrite trimStart_skips by reflexivity.
  rewrite trimStart_keeps by exact H. cbn [rev]. now rewrite rev_involutive.
Qed.

(** A template whose first and last characters are not white space is what
    [trim] leaves of it when it stands between two line breaks. *)
Lemma trim_template (pieces : list jsstring) a p ps b q :
  pieces = (a :: p) :: ps ->
  last pieces [] = q ++ [b] ->
  isWhiteSpace a = false -> isWhiteSpace b = false ->
  trim (nl ++ List.concat pieces ++ nl) = List.concat pieces.
Proof.
  intros E El Ha Hb. unfold trim.
  assert (Hs : trimStart (nl ++ List.concat pieces ++ nl)
               = List.concat pieces ++ nl).
  { rewrite E. unfold nl. cbn [List.concat app].
    rewrite trimStart_skips by reflexivity.
    now rewrite trimStart_keeps. }
  rewrite Hs.
  assert (Hne : pieces <> []) by (rewrite E; discriminate).
  unfold jsstring, char in *.
  rewrite (app_removelast_last [] Hne) at 1 2.
  rewrite concat_app, El. cbn [List.concat]. rewrite app_nil_r.
  rewrite app_assoc. apply trimEnd_line_break. exact Hb.
Qed.

Lemma concat_contains (pieces : list jsstring) p :
  In p pieces -> contains (List.concat pieces) p.
Proof.
  intros H. apply in_split in H as (l1 & l2 & ->).
  exists (List.concat l1), (List.concat l2).
  now rewrite concat_app.
Qed.

Lemma concat_contains_tag (l1 l2 : list jsstring) pre cp :
  contains (List.concat (l1 ++ [pre ++ lit "<promise>"; cp; lit "</promise>"] ++ l2))
           (lit "<promise>" ++ cp ++ lit "</promise>").
Proof.
  exists (List.concat l1 ++ pre), (List.concat l2).
  rewrite !concat_app. cbn [List.concat]. rewrite <- !app_assoc.
  repeat f_equal.
Qed.

Lemma buildPrompt_template state :
  External.buildPrompt state = List.concat (External.promptTemplate state).
Proof.
  unfold External.buildPrompt.
  eapply trim_template with (b := 33%N);
    [reflexivity| |reflexivity|reflexivity].
  instantiate (1 := lit "Now, work on the task. Good luck"). reflexivity.
Qed.

Lemma buildPrompt_contains_tag state :
  contains (External.buildPrompt state)
    (lit "<promise>" ++ completionPromise state ++ lit "</promise>").
Proof.
  rewrite buildPrompt_template.
  exact (concat_contains_tag (firstn 24 (External.promptTemplate state))
           (skipn 27 (External.promptTemplate state)) (lit "   ")
           (completionPromise state)).
Qed.

Lemma buildIterationPrompt_contains_tag state :
  contains (Plugin.buildIterationPrompt state)
    (lit "<promise>" ++ completionPromise state ++ lit "</promise>").
Proof.
  exact (concat_contains_tag (firstn 24 (Plugin.iterationPromptTemplate state))
           (skipn 27 (Plugin.iterationPromptTemplate state)) (lit "   ")
           (completionPromise state)).
Qed.

(** C7.  For every state, the prompt of either builder contains the
    completion marker between [<promise>] and [</promise>] and contains the
    decimal rendering of the iteration number; both builders are functions
    of the state alone. *)
Theorem prompt_embeds_tag_and_iteration state :
  (contains (External.buildPrompt state)
     (lit "<promise>" ++ completionPromise state ++ lit "</promise>") /\
   contains (External.buildPrompt state) (numberToString (iteration state))) /\
  (contains (Plugin.buildIterationPrompt state)
     (lit "<promise>" ++ completionPromise state ++ lit "</promise>") /\
   contains (Plugin.buildIterationPrompt state)
     (numberToString (iteration state))).
Proof.
  repeat split.
  - apply buildPrompt_contains_tag.
  - rewrite buildPrompt_template. apply concat_contains. cbn. auto.
  - apply buildIterationPrompt_contains_tag.
  - apply concat_contains. cbn. auto.
Qed.

Section SelfMatch.
Variable toUpperCase : char -> jsstring.

Lemma sameIgnoringCase_refl s : sameIgnoringCase toUpperCase s s.
Proof. induction s; constructor; auto. Qed.

Lemma checkCompletion_of_tag t m :
  contains t (lit "<promise>" ++ m ++ lit "</promise>") ->
  checkCompletion toUpperCase t m = true.
Proof.
  intros (pre & post & ->).
  rewrite checkCompletion_regex. apply matchAnywhere_iff.
  exists pre, (lit "<promise>" ++ m ++ lit "</promise>"), post.
  split; [reflexivity|].
  apply (promiseRegex_complete (toUpperCase := toUpperCase) (m := m)
           (op := lit "<promise>") (ws1 := []) (m' := m) (ws2 := [])
           (cl := lit "</promise>"));
    try apply sameIgnoringCase_refl; constructor.
Qed.

(** C9.  For every state and case table, the prompt of either builder
    satisfies the completion matcher for that state's marker, so an output
    that repeats the prompt is taken for a completion. *)
Theorem prompt_satisfies_matcher state :
  checkCompletion toUpperCase (External.buildPrompt state)
    (completionPromise state) = true /\
  checkCompletion toUpperCase (Plugin.buildIterationPrompt state)
    (completionPromise state) = true.
Proof.
  split; apply checkCompletion_of_tag.
  - apply buildPrompt_contains_tag.
  - apply buildIterationPrompt_contains_tag.
Qed.
End SelfMatch.

(** ** The state file *)

Lemma saveState_spec state w :
  saveState state w =
  (tt, {| fs := {| stateDirExists := true; stateFile := Some (Json state) |};
          trace := trace w ++ mkdirEvents (fs w) ++ [EvWriteState state] |}).
Proof.
  destruct w as [[dir file] tr]. unfold saveState, mkdirEvents, bind, getDisk.
  cbn. destruct dir; cbn; [reflexivity|]. now rewrite <- app_assoc.
Qed.

Lemma clearState_spec w :
  clearState w =
  (tt, {| fs := {| stateDirExists := stateDirExists (fs w); stateFile := None |};
          trace := trace w ++ unlinkEvents (fs w) |}).
Proof.
  destruct w as [[dir file] tr]. unfold clearState, unlinkEvents, bind, getDisk.
  cbn. destruct file; cbn; [reflexivity|]. now rewrite app_nil_r.
Qed.

Lemma loadState_spec w : loadState w = (stored w, w).
Proof.
  destruct w as [[dir file] tr]. unfold loadState, stored, bind, getDisk, ret.
  cbn. destruct file as [[|]|]; reflexivity.
Qed.

Lemma spawns_app a b : spawns (a ++ b) = spawns a ++ spawns b.
Proof.
  induction a as [|e a IH]; [reflexivity|]. cbn.
  destruct (spawnOf e); cbn; now rewrite IH.
Qed.

Lemma differsOnlyInProgress_iteration n s :
  differsOnlyInProgress s (withIteration n s).
Proof. repeat split. Qed.

Lemma differsOnlyInProgress_lastOutput text s :
  differsOnlyInProgress s (withLastOutput text s).
Proof. repeat split. Qed.

Lemma stored_Json w s : stateFile (fs w) = Some (Json s) -> stored w = Some s.
Proof. unfold stored. now intros ->. Qed.

Lemma writesOnly_app P a b :
  writesOnly P a -> writesOnly P b -> writesOnly P (a ++ b).
Proof. intros Ha Hb s H. apply in_app_or in H as [H|H]; auto. Qed.

Lemma writesOnly_none P evs :
  existsb isStateWrite evs = false -> writesOnly P evs.
Proof.
  intros H s Hin. exfalso.
  assert (E : existsb isStateWrite evs = true).
  { apply existsb_exists. now exists (EvWriteState s). }
  congruence.
Qed.

Lemma writesOnly_one (P : RalphState -> Prop) s :
  P s -> writesOnly P [EvWriteState s].
Proof. intros H s' [E|[]]. now injection E as <-. Qed.

Lemma writesOnly_other (P : RalphState -> Prop) e :
  isStateWrite e = false -> writesOnly P [e].
Proof. intros H. apply writesOnly_none. cbn. now rewrite H. Qed.

Lemma writesOnly_weaken (P Q : RalphState -> Prop) evs :
  (forall s, P s -> Q s) -> writesOnly P evs -> writesOnly Q evs.
Proof. intros H Hp s Hin. apply H, Hp, Hin. Qed.

(** ** The external driver *)

Module ExternalFacts.
Import External ExternalSpec.

Section Facts.
Variable toUpperCase : char -> jsstring.
Variable opts : options.
Abbreviation mainLoop := (External.mainLoop toUpperCase opts).

Lemma ensureFilteredPluginsConfig_spec w :
  ensureFilteredPluginsConfig w =
  (tt, {| fs := {| stateDirExists := true; stateFile := stateFile (fs w) |};
          trace := trace w ++ mkdirEvents (fs w) ++ [EvWriteFilteredConfig] |}).
Proof.
  destruct w as [[dir file] tr].
  unfold ensureFilteredPluginsConfig, mkdirEvents, bind, getDisk, emit,
    setDisk, ret.
  cbn. destruct dir; cbn; [reflexivity|]. now rewrite <- app_assoc.
Qed.

Lemma autoCommitStep_spec state env w :
  autoCommitStep opts state env w =
  (tt, {| fs := fs w; trace := trace w ++ gitEvents opts state env |}).
Proof.
  destruct w as [d tr]. unfold autoCommitStep, gitEvents.
  destruct (autoCommit opts); [|cbn; now rewrite app_nil_r].
  unfold bind, emit, ret. cbn [fs trace fst snd].
  destruct (gitStatus env) as [status|]; [|reflexivity].
  destruct (trim status); [reflexivity|].
  destruct (gitAddOk env); cbn [fs trace fst snd]; rewrite <- ?app_assoc; reflexivity.
Qed.

(** The prelude of the loop body: the optional plugin filter and the spawn. *)
Lemma prelude_spec state w :
  ((if disablePlugins opts then ensureFilteredPluginsConfig else ret tt) ;;
   emit (spawnEvent opts state)) w =
  (tt, {| fs := if disablePlugins opts
                then {| stateDirExists := true; stateFile := stateFile (fs w) |}
                else fs w;
          trace := trace w ++ pluginsEvents opts (fs w) ++ [spawnEvent opts state] |}).
Proof.
  unfold bind, pluginsEvents. destruct (disablePlugins opts).
  - rewrite ensureFilteredPluginsConfig_spec. unfold emit. cbn [fs trace fst snd].
    now rewrite <- !app_assoc.
  - reflexivity.
Qed.

Lemma mainLoop_unfold script state :
  mainLoop script state =
  if maxIterationsReached (maxIterations opts) (iteration state) then
    clearState ;; ret Returned
  else
    match script with
    | [] => ret (AwaitingAgent state)
    | env :: script' =>
        ((if disablePlugins opts then ensureFilteredPluginsConfig else ret tt) ;;
         emit (spawnEvent opts state)) ;;
        match agent env with
        | SpawnThrew =>
            saveState (nextState state) ;;
            emit (EvSleep 2000) ;;
            mainLoop script' (nextState state)
        | AgentExited result stderr exitCode =>
            if detectPlaceholderPluginError stderr
               || detectPlaceholderPluginError result then
              clearState ;; ret (Exit 1)
            else if negb (exitCode =? 0)%Z then
              clearState ;; ret (Exit exitCode)
            else if checkCompletion toUpperCase result (completionPromise opts)
            then
              clearState ;; ret Returned
            else
              autoCommitStep opts state env ;;
              saveState (nextState state) ;;
              emit (EvSleep 1000) ;;
              mainLoop script' (nextState state)
        end
    end.
Proof.
  destruct script as [|env script']; [reflexivity|].
  cbn [External.mainLoop].
  destruct (maxIterationsReached _ _); [reflexivity|].
  unfold bind. reflexivity.
Qed.

Lemma uneventful_inv env :
  uneventful toUpperCase opts env = true ->
  exists result stderr,
    agent env = AgentExited result stderr 0 /\
    detectPlaceholderPluginError stderr
      || detectPlaceholderPluginError result = false /\
    checkCompletion toUpperCase result (completionPromise opts) = false.
Proof.
  unfold uneventful. destruct (agent env) as [result stderr code|]; [|discriminate].
  intros H. apply andb_true_iff in H as [H H3].
  apply andb_true_iff in H as [H1 H2].
  apply Z.eqb_eq in H2. subst code.
  exists result, stderr. repeat split.
  - now apply negb_true_iff.
  - now apply negb_true_iff.
Qed.

Lemma mainLoop_step env script state w :
  maxIterationsReached (maxIterations opts) (iteration state) = false ->
  uneventful toUpperCase opts env = true ->
  mainLoop (env :: script) state w =
  mainLoop script (nextState state)
    {| fs := savedDisk (nextState state);
       trace := trace w ++ iterationEvents opts env state (fs w) |}.
Proof.
  intros Hmax Hun.
  destruct (uneventful_inv _ Hun) as (result & stderr & Ha & Hd & Hc).
  rewrite mainLoop_unfold, Hmax. step_bind. rewrite prelude_spec.
  rewrite Ha, Hd, Hc. cbn [negb Z.eqb fst snd].
  step_bind. rewrite autoCommitStep_spec. cbn [fst snd].
  step_bind. rewrite saveState_spec. cbn [fst snd fs trace].
  step_bind. unfold emit at 1. cbn [fst snd fs trace].
  f_equal. unfold savedDisk, iterationEvents. f_equal.
  rewrite <- !app_assoc. do 3 f_equal.
  destruct (disablePlugins opts); reflexivity.
Qed.

Lemma withIteration_twice i j (state : RalphState) :
  withIteration i (withIteration j state) = withIteration i state.
Proof. reflexivity. Qed.

Lemma iteration_withIteration i (state : RalphState) :
  iteration (withIteration i state) = i.
Proof. reflexivity. Qed.

Lemma withIteration_self (state : RalphState) :
  withIteration (iteration state) state = state.
Proof. now destruct state. Qed.

Lemma iteration_stateAfter k : forall state,
  iteration (stateAfter k state) = (iteration state + Z.of_nat k)%Z.
Proof.
  induction k as [|k IH]; intros state; cbn [stateAfter].
  - lia.
  - rewrite IH. cbn. lia.
Qed.

Lemma stateAfter_withIteration k : forall state,
  stateAfter k state = withIteration (iteration state + Z.of_nat k) state.
Proof.
  induction k as [|k IH]; intros state; cbn [stateAfter].
  - now rewrite Z.add_0_r, withIteration_self.
  - rewrite IH. unfold nextState.
    rewrite withIteration_twice, iteration_withIteration. f_equal. lia.
Qed.

Lemma mainLoop_run good : forall rest state w,
  forallb (uneventful toUpperCase opts) good = true ->
  (forall j, (j < List.length good)%nat ->
     maxIterationsReached (maxIterations opts)
       (iteration state + Z.of_nat j) = false) ->
  mainLoop (good ++ rest) state w =
  mainLoop rest (stateAfter (List.length good) state)
    {| fs := diskAfter good state (fs w);
       trace := trace w ++ runEvents opts good state (fs w) |}.
Proof.
  induction good as [|env good IH]; intros rest state w Hun Hmax.
  - cbn. rewrite app_nil_r. now destruct w.
  - cbn [forallb] in Hun. apply andb_true_iff in Hun as [He Hun].
    cbn [app]. rewrite mainLoop_step; [|now rewrite <- (Hmax 0%nat), Z.add_0_r by (cbn; lia)|exact He].
    rewrite IH; [|exact Hun|].
    + cbn [fs trace List.length stateAfter runEvents]. f_equal. f_equal.
      * unfold diskAfter. destruct good; reflexivity.
      * now rewrite <- app_assoc.
    + intros j Hj. unfold nextState. rewrite iteration_withIteration.
      rewrite <- (Hmax (S j)) by (cbn; lia). f_equal. lia.
Qed.

Lemma spawns_gitEvents state env : spawns (gitEvents opts state env) = [].
Proof.
  unfold gitEvents. destruct (autoCommit opts); [|reflexivity].
  destruct (gitStatus env) as [status|]; [|reflexivity].
  destruct (trim status); [reflexivity|]. now destruct (gitAddOk env).
Qed.

Lemma spawns_mkdirEvents d : spawns (mkdirEvents d) = [].
Proof. unfold mkdirEvents. now destruct (stateDirExists d). Qed.

Lemma spawns_iterationEvents env state d :
  spawns (iterationEvents opts env state d)
  = [spawnArgv opts (buildPrompt state)].
Proof.
  unfold iterationEvents, pluginsEvents. rewrite !spawns_app.
  rewrite spawns_gitEvents.
  destruct (disablePlugins opts); rewrite ?spawns_app, ?spawns_mkdirEvents;
    reflexivity.
Qed.

Lemma spawns_runEvents envs : forall state d,
  spawns (runEvents opts envs state d)
  = map (fun i => spawnArgv opts (buildPrompt (withIteration i state)))
        (iterationNumbers (iteration state) (List.length envs)).
Proof.
  unfold iterationNumbers.
  induction envs as [|env envs IH]; intros state d; [reflexivity|].
  cbn [runEvents List.length seq map]. rewrite spawns_app, spawns_iterationEvents, IH.
  cbn [app]. f_equal.
  - now rewrite Z.add_0_r, withIteration_self.
  - rewrite <- seq_shift, !map_map. apply map_ext. intros j.
    unfold nextState. rewrite withIteration_twice, iteration_withIteration.
    do 3 f_equal. lia.
Qed.

Lemma runRalphLoop_starts now script w :
  isActive (stored w) = false ->
  runRalphLoop toUpperCase opts now script w =
  mainLoop script (initialState opts now)
    {| fs := savedDisk (initialState opts now);
       trace := trace w ++ mkdirEvents (fs w)
                  ++ [EvWriteState (initialState opts now)] |}.
Proof.
  intros H. unfold runRalphLoop. step_bind. rewrite loadState_spec.
  cbn [fst snd]. rewrite H. step_bind. now rewrite saveState_spec.
Qed.

Lemma mainLoop_max_reached script state w :
  maxIterationsReached (maxIterations opts) (iteration state) = true ->
  mainLoop script state w =
  (Returned,
   {| fs := {| stateDirExists := stateDirExists (fs w); stateFile := None |};
      trace := trace w ++ unlinkEvents (fs w) |}).
Proof.
  intros H. rewrite mainLoop_unfold, H. step_bind.
  now rewrite clearState_spec.
Qed.

Lemma iterationNumbers_S first n :
  iterationNumbers first (S n) = first :: iterationNumbers (first + 1) n.
Proof.
  unfold iterationNumbers. cbn [seq map]. rewrite Z.add_0_r. f_equal.
  rewrite <- seq_shift, map_map. apply map_ext. intros j. lia.
Qed.

Lemma spawns_unlinkEvents d : spawns (unlinkEvents d) = [].
Proof. unfold unlinkEvents. now destruct (stateFile d). Qed.

Lemma spawns_prelude state d :
  spawns (pluginsEvents opts d ++ [spawnEvent opts state])
  = [spawnArgv opts (buildPrompt state)].
Proof.
  rewrite spawns_app. unfold pluginsEvents.
  destruct (disablePlugins opts); rewrite ?spawns_app, ?spawns_mkdirEvents;
    reflexivity.
Qed.

(** Whatever the environment answers, the agent is spawned for consecutive
    iteration numbers, and for none beyond a positive [maxIterations]. *)
Lemma mainLoop_spawns script : forall state w,
  exists k,
    spawns (trace (snd (mainLoop script state w)))
    = spawns (trace w)
      ++ map (fun i => spawnArgv opts (buildPrompt (withIteration i state)))
             (iterationNumbers (iteration state) k) /\
    ((0 < maxIterations opts)%Z ->
     (iteration state <= maxIterations opts + 1)%Z ->
     (iteration state + Z.of_nat k <= maxIterations opts + 1)%Z).
Proof.
  induction script as [|env script IH]; intros state w;
    rewrite mainLoop_unfold;
    destruct (maxIterationsReached _ _) eqn:Hmax.
  - exists 0%nat. step_bind. rewrite clearState_spec. cbn [fst snd ret trace].
    rewrite spawns_app, spawns_unlinkEvents. split; [reflexivity|lia].
  - exists 0%nat. cbn [ret snd iterationNumbers seq map].
    split; [now rewrite app_nil_r|lia].
  - exists 0%nat. step_bind. rewrite clearState_spec. cbn [fst snd ret trace].
    rewrite spawns_app, spawns_unlinkEvents. split; [reflexivity|lia].
  - step_bind. rewrite prelude_spec. cbn [fst snd].
    set (w1 := {| fs := _; trace := _ |}).
    assert (Hw1 : spawns (trace w1)
                  = spawns (trace w) ++ [spawnArgv opts (buildPrompt state)]).
    { subst w1. cbn [trace]. now rewrite spawns_app, spawns_prelude. }
    assert (Hle : (0 < maxIterations opts)%Z ->
                  (iteration state <= maxIterations opts)%Z).
    { intros Hpos. unfold maxIterationsReached in Hmax.
      apply andb_false_iff in Hmax as [H|H].
      - apply Z.ltb_ge in H. lia.
      - apply Z.ltb_ge in H. exact H. }
    assert (Hclear : forall o : outcome,
      exists k,
        spawns (trace (snd ((clearState ;; ret o) w1)))
        = spawns (trace w)
          ++ map (fun i => spawnArgv opts (buildPrompt (withIteration i state)))
                 (iterationNumbers (iteration state) k) /\
        ((0 < maxIterations opts)%Z ->
         (iteration state <= maxIterations opts + 1)%Z ->
         (iteration state + Z.of_nat k <= maxIterations opts + 1)%Z)).
    { intros o. exists 1%nat. step_bind. rewrite clearState_spec.
      cbn [fst snd ret trace]. rewrite spawns_app, spawns_unlinkEvents, Hw1.
      rewrite iterationNumbers_S. cbn [iterationNumbers seq map].
      rewrite withIteration_self, app_nil_r. split; [reflexivity|].
      intros Hpos _. specialize (Hle Hpos). lia. }
    assert (Hcont : forall w2,
      spawns (trace w2) = spawns (trace w1) ->
      exists k,
        spawns (trace (snd (mainLoop script (nextState state) w2)))
        = spawns (trace w)
          ++ map (fun i => spawnArgv opts (buildPrompt (withIteration i state)))
                 (iterationNumbers (iteration state) k) /\
        ((0 < maxIterations opts)%Z ->
         (iteration state <= maxIterations opts + 1)%Z ->
         (iteration state + Z.of_nat k <= maxIterations opts + 1)%Z)).
    { intros w2 E. destruct (IH (nextState state) w2) as (k & Hk & Hb).
      exists (S k). split.
      - rewrite Hk, E, Hw1, iterationNumbers_S. cbn [map].
        rewrite withIteration_self, <- app_assoc. cbn [app].
        unfold nextState. now rewrite iteration_withIteration.
      - intros Hpos _. specialize (Hle Hpos).
        unfold nextState in Hb. rewrite iteration_withIteration in Hb.
        specialize (Hb Hpos ltac:(lia)). lia. }
    destruct (agent env) as [result stderr code|].
    + destruct (_ || _); [apply Hclear|].
      destruct (negb _); [apply Hclear|].
      destruct (checkCompletion _ _ _); [apply Hclear|].
      step_bind. rewrite autoCommitStep_spec. cbn [fst snd].
      step_bind. rewrite saveState_spec. cbn [fst snd fs trace].
      step_bind. unfold emit at 1. cbn [fst snd fs trace].
      apply Hcont. cbn [trace].
      rewrite !spawns_app, spawns_gitEvents, spawns_mkdirEvents.
      cbn [spawns spawnOf]. now rewrite !app_nil_r.
    + step_bind. rewrite saveState_spec. cbn [fst snd fs trace].
      step_bind. unfold emit at 1. cbn [fst snd fs trace].
      apply Hcont. cbn [trace].
      rewrite !spawns_app, spawns_mkdirEvents.
      cbn [spawns spawnOf]. now rewrite !app_nil_r.
Qed.

(** C3.  With [maxIterations = n > 0] and [n] passes in which the agent
    exits with status 0, the sentinel is absent and no completion is
    detected, the external driver spawns the agent for the prompts of the
    iterations [1 .. n] and for no other, then leaves the loop with the
    state file removed and exit status 0, whatever further agent runs the
    environment could have supplied; at [n = 3] the iterations are 1, 2
    and 3.  And whatever the agent runs are, the prompts spawned are those
    of the iterations [1 .. k] for some [k <= n]: no iteration numbered
    [n + 1] is ever built or spawned. *)
Theorem max_iterations_runs_exactly now w :
  (0 < maxIterations opts)%Z ->
  isActive (stored w) = false ->
  (forall good rest,
     Z.of_nat (List.length good) = maxIterations opts ->
     forallb (uneventful toUpperCase opts) good = true ->
     let r := runRalphLoop toUpperCase opts now (good ++ rest) w in
     fst r = Returned /\ exitStatus (fst r) = Some 0%Z /\
     stateFile (fs (snd r)) = None /\
     spawns (trace (snd r)) =
       spawns (trace w)
       ++ map (fun i => spawnArgv opts
                          (buildPrompt (withIteration i (initialState opts now))))
              (iterationNumbers 1 (List.length good))) /\
  (forall script,
     exists k,
       (Z.of_nat k <= maxIterations opts)%Z /\
       spawns (trace (snd (runRalphLoop toUpperCase opts now script w))) =
         spawns (trace w)
         ++ map (fun i => spawnArgv opts
                            (buildPrompt (withIteration i (initialState opts now))))
                (iterationNumbers 1 k)).
Proof.
  intros Hpos Hact. split.
  - intros good rest Hlen Hun r. subst r.
    rewrite runRalphLoop_starts by exact Hact.
    rewrite mainLoop_run; [|exact Hun|].
    + rewrite mainLoop_max_reached.
      * cbn [fst snd fs trace exitStatus]. repeat split.
        rewrite !spawns_app, spawns_mkdirEvents, spawns_runEvents.
        cbn [spawns spawnOf app]. rewrite spawns_unlinkEvents.
        now rewrite !app_nil_r.
      * rewrite iteration_stateAfter. unfold maxIterationsReached.
        cbn [initialState iteration].
        apply andb_true_iff. split; [apply Z.ltb_lt|apply Z.ltb_lt]; lia.
    + intros j Hj. unfold maxIterationsReached. cbn [initialState iteration].
      apply andb_false_iff. right. apply Z.ltb_ge. lia.
  - intros script. rewrite runRalphLoop_starts by exact Hact.
    match goal with |- context [mainLoop script ?st ?w1] =>
      destruct (mainLoop_spawns script st w1) as (k & Hk & Hb) end.
    exists k. split.
    + cbn [initialState iteration] in Hb. specialize (Hb Hpos ltac:(lia)). lia.
    + rewrite Hk. cbn [trace initialState iteration].
      rewrite !spawns_app, spawns_mkdirEvents. cbn [spawns spawnOf].
      now rewrite !app_nil_r.
Qed.

Lemma no_git_or_write_in_prelude state d :
  existsb isGit (pluginsEvents opts d ++ [spawnEvent opts state]
                   ++ unlinkEvents d) = false /\
  existsb isStateWrite (pluginsEvents opts d ++ [spawnEvent opts state]
                          ++ unlinkEvents d) = false.
Proof.
  unfold pluginsEvents, mkdirEvents, unlinkEvents.
  destruct (disablePlugins opts), (stateDirExists d), (stateFile d);
    split; reflexivity.
Qed.

(** C4.  In a pass of the loop body where the agent exits with a status
    [c <> 0] and neither stream holds the placeholder sentinel, the driver
    ends the process with status [c] and the state file removed; between
    the start of the pass and the exit it spawns the agent once, runs no
    git command and writes no state, so the iteration counter is not
    advanced. *)
Theorem agent_failure_stops_the_loop env script state w result stderr c :
  maxIterationsReached (maxIterations opts) (iteration state) = false ->
  agent env = AgentExited result stderr c ->
  c <> 0%Z ->
  detectPlaceholderPluginError stderr = false ->
  detectPlaceholderPluginError result = false ->
  let r := mainLoop (env :: script) state w in
  fst r = Exit c /\ exitStatus (fst r) = Some c /\
  stateFile (fs (snd r)) = None /\
  exists new,
    trace (snd r) = trace w ++ new /\
    spawns new = [spawnArgv opts (buildPrompt state)] /\
    existsb isGit new = false /\
    existsb isStateWrite new = false.
Proof.
  intros Hmax Ha Hc He Ho r. subst r.
  rewrite mainLoop_unfold, Hmax. step_bind. rewrite prelude_spec.
  rewrite Ha, He, Ho. cbn [orb fst snd].
  replace (negb (c =? 0)%Z) with true
    by (symmetry; apply negb_true_iff, Z.eqb_neq, Hc).
  step_bind. rewrite clearState_spec. cbn [fst snd fs trace exitStatus ret].
  repeat split.
  exists (pluginsEvents opts (fs w) ++ [spawnEvent opts state]
            ++ unlinkEvents (fs w)).
  split; [|split].
  - rewrite <- !app_assoc. do 3 f_equal.
    unfold unlinkEvents. now destruct (disablePlugins opts).
  - rewrite !spawns_app. unfold pluginsEvents, unlinkEvents.
    destruct (disablePlugins opts), (stateFile (fs w));
      rewrite ?spawns_app, ?spawns_mkdirEvents; reflexivity.
  - apply no_git_or_write_in_prelude.
Qed.

(** Writes of the external driver *)

Lemma no_write_unlink d : existsb isStateWrite (unlinkEvents d) = false.
Proof. unfold unlinkEvents. now destruct (stateFile d). Qed.

Lemma no_write_mkdir d : existsb isStateWrite (mkdirEvents d) = false.
Proof. unfold mkdirEvents. now destruct (stateDirExists d). Qed.

Lemma no_write_plugins d : existsb isStateWrite (pluginsEvents opts d) = false.
Proof.
  unfold pluginsEvents, mkdirEvents.
  now destruct (disablePlugins opts), (stateDirExists d).
Qed.

Lemma no_write_git state env :
  existsb isStateWrite (gitEvents opts state env) = false.
Proof.
  unfold gitEvents. destruct (autoCommit opts); [|reflexivity].
  destruct (gitStatus env) as [status|]; [|reflexivity].
  destruct (trim status); [reflexivity|]. now destruct (gitAddOk env).
Qed.

Lemma mainLoop_writes script : forall state w,
  exists new,
    trace (snd (mainLoop script state w)) = trace w ++ new /\
    writesOnly (fun s => exists n, s = withIteration n state) new.
Proof.
  induction script as [|env script IH]; intros state w;
    rewrite mainLoop_unfold;
    destruct (maxIterationsReached _ _).
  - step_bind. rewrite clearState_spec. eexists. split; [reflexivity|].
    apply writesOnly_none, no_write_unlink.
  - exists []. split; [now rewrite app_nil_r|]. intros s [].
  - step_bind. rewrite clearState_spec. eexists. split; [reflexivity|].
    apply writesOnly_none, no_write_unlink.
  - step_bind. rewrite prelude_spec. cbn [fst snd].
    set (w1 := {| fs := _; trace := _ |}).
    set (P := fun s => exists n, s = withIteration n state).
    assert (H1 : writesOnly P
                   (pluginsEvents opts (fs w) ++ [spawnEvent opts state])).
    { apply writesOnly_app; [apply writesOnly_none, no_write_plugins|].
      now apply writesOnly_other. }
    assert (Hclear : forall o : outcome,
      exists new,
        trace (snd ((clearState ;; ret o) w1)) = trace w ++ new /\
        writesOnly P new).
    { intros o. step_bind. rewrite clearState_spec. cbn [fst snd ret trace].
      subst w1. cbn [trace]. rewrite <- app_assoc. eexists.
      split; [reflexivity|].
      apply writesOnly_app; [exact H1|].
      apply writesOnly_none, no_write_unlink. }
    assert (Hcont : forall w2 mid,
      trace w2 = trace w1 ++ mid -> writesOnly P mid ->
      exists new,
        trace (snd (mainLoop script (nextState state) w2)) = trace w ++ new /\
        writesOnly P new).
    { intros w2 mid E Hmid.
      destruct (IH (nextState state) w2) as (new & En & Hn).
      exists ((pluginsEvents opts (fs w) ++ [spawnEvent opts state])
                ++ mid ++ new).
      split.
      - rewrite En, E. subst w1. cbn [trace]. now rewrite <- !app_assoc.
      - apply writesOnly_app; [exact H1|].
        apply writesOnly_app; [exact Hmid|].
        intros s Hs. destruct (Hn s Hs) as (n & ->).
        exists n. reflexivity. }
    assert (Hsave : writesOnly P [EvWriteState (nextState state)]).
    { apply writesOnly_one. now exists (iteration state + 1)%Z. }
    destruct (agent env) as [result stderr code|].
    + destruct (_ || _); [apply Hclear|].
      destruct (negb _); [apply Hclear|].
      destruct (checkCompletion _ _ _); [apply Hclear|].
      step_bind. rewrite autoCommitStep_spec. cbn [fst snd].
      step_bind. rewrite saveState_spec. cbn [fst snd fs trace].
      step_bind. unfold emit at 1. cbn [fst snd fs trace].
      eapply Hcont.
      * cbn [trace]. rewrite <- !app_assoc. reflexivity.
      * repeat apply writesOnly_app; auto.
        -- apply writesOnly_none, no_write_git.
        -- apply writesOnly_none, no_write_mkdir.
        -- now apply writesOnly_other.
    + step_bind. rewrite saveState_spec. cbn [fst snd fs trace].
      step_bind. unfold emit at 1. cbn [fst snd fs trace].
      eapply Hcont.
      * cbn [trace]. rewrite <- !app_assoc. reflexivity.
      * repeat apply writesOnly_app; auto.
        -- apply writesOnly_none, no_write_mkdir.
        -- now apply writesOnly_other.
Qed.

Lemma runRalphLoop_writes now script w :
  exists new,
    trace (snd (runRalphLoop toUpperCase opts now script w)) = trace w ++ new /\
    writesOnly (fun s => exists n, s = withIteration n (initialState opts now))
               new.
Proof.
  destruct (isActive (stored w)) eqn:Hact.
  - exists []. split; [|intros s []].
    unfold runRalphLoop. step_bind. rewrite loadState_spec. cbn [fst snd].
    rewrite Hact. cbn. now rewrite app_nil_r.
  - rewrite runRalphLoop_starts by exact Hact.
    match goal with |- context [mainLoop script ?st ?w1] =>
      destruct (mainLoop_writes script st w1) as (new & E & Hn) end.
    exists ((mkdirEvents (fs w) ++ [EvWriteState (initialState opts now)])
              ++ new).
    split.
    + rewrite E. cbn [trace]. now rewrite <- !app_assoc.
    + repeat apply writesOnly_app; auto.
      * apply writesOnly_none, no_write_mkdir.
      * apply writesOnly_one. exists 1%Z. reflexivity.
Qed.
End Facts.
End ExternalFacts.

(** ** The in-host driver *)

Module PluginFacts.
Import Plugin PluginSpec ExternalSpec ExternalFacts.

Section Facts.
Variable toUpperCase : char -> jsstring.
Variable clientCanPrompt : bool.
Abbreviation event := (Plugin.event toUpperCase clientCanPrompt).
Abbreviation onSessionIdle := (Plugin.onSessionIdle toUpperCase clientCanPrompt).
Abbreviation idleCase := (PluginSpec.idleCase toUpperCase clientCanPrompt).

Lemma liftW_spec A (m : M world A) i :
  liftW m i = (fst (m (host i)),
               {| isProcessing := isProcessing i; host := snd (m (host i)) |}).
Proof. reflexivity. Qed.

Lemma onSessionIdle_cases i sid :
  idleCase i sid (fst (onSessionIdle sid i)) (snd (onSessionIdle sid i)).
Proof.
  unfold Plugin.onSessionIdle. step_bind. rewrite liftW_spec, loadState_spec.
  cbn [fst snd].
  replace {| isProcessing := isProcessing i; host := host i |} with i
    by now destruct i.
  destruct (stored (host i)) as [s|] eqn:Hs;
    [|unfold ret; cbn [fst snd]; apply idle_no_loop; rewrite Hs; reflexivity].
  destruct (active s) eqn:Ha; cbn [negb];
    [|unfold ret; cbn [fst snd]; apply idle_no_loop; rewrite Hs; exact Ha].
  destruct (lastOutputCompletes toUpperCase s) eqn:Hl.
  { step_bind. rewrite liftW_spec, clearState_spec. unfold ret. cbn [fst snd].
    eapply idle_cleared; eauto. }
  destruct (maxIterationsReached _ _) eqn:Hm.
  { step_bind. rewrite liftW_spec, clearState_spec. unfold ret. cbn [fst snd].
    eapply idle_cleared; eauto. }
  destruct (orElse sid (sessionId s)) as [[|c session]|] eqn:Ho.
  - unfold ret; cbn [fst snd]. eapply idle_no_session; eauto. now rewrite Ho.
  - destruct clientCanPrompt eqn:Hc.
    + repeat step_bind.
      unfold setProcessing. cbn [fst snd host isProcessing].
      rewrite !liftW_spec. cbn [fst snd host isProcessing].
      rewrite saveState_spec. cbn [fst snd host isProcessing].
      unfold emit, ret. cbn [fst snd fs trace host isProcessing].
      rewrite <- !app_assoc.
      eapply idle_continue; eauto. discriminate.
    + unfold ret; cbn [fst snd].
      eapply idle_no_session; eauto. rewrite Ho. reflexivity.
  - unfold ret; cbn [fst snd]. eapply idle_no_session; eauto. now rewrite Ho.
Qed.

Lemma event_idle_free sid i :
  isProcessing i = false ->
  event (SessionIdle sid) i = onSessionIdle sid i.
Proof.
  intros H. unfold Plugin.event. step_bind.
  unfold getProcessing. cbn [fst snd]. now rewrite H.
Qed.

Lemma event_idle_busy sid i :
  isProcessing i = true ->
  event (SessionIdle sid) i = (Finished, i).
Proof.
  intros H. unfold Plugin.event. step_bind.
  unfold getProcessing. cbn [fst snd]. now rewrite H.
Qed.



(** Writes of the handler *)

Lemma onMessageUpdated_cases role body i :
  snd (onMessageUpdated toUpperCase role body i) = i \/
  exists s, stored (host i) = Some s /\
    snd (onMessageUpdated toUpperCase role body i) =
    {| isProcessing := isProcessing i;
       host := {| fs := {| stateDirExists := true;
                           stateFile := Some (Json (withLastOutput (textContent body) s)) |};
                  trace := trace (host i) ++ mkdirEvents (fs (host i))
                    ++ [EvWriteState (withLastOutput (textContent body) s)] |} |}.
Proof.
  unfold onMessageUpdated. step_bind. rewrite liftW_spec, loadState_spec.
  cbn [fst snd].
  replace {| isProcessing := isProcessing i; host := host i |} with i
    by now destruct i.
  destruct (stored (host i)) as [s|] eqn:Hs; [|now left].
  destruct (active s); [|now left].
  destruct (_ && contentTruthy body); [|now left].
  destruct (_ && checkCompletion _ _ _); [|now left].
  right. exists s. split; [reflexivity|].
  now rewrite liftW_spec, saveState_spec.
Qed.

Lemma event_writes ev i :
  exists new,
    trace (host (snd (event ev i))) = trace (host i) ++ new /\
    writesOnly (handlerWrite i) new.
Proof.
  destruct ev as [sid|role body|].
  - destruct (isProcessing i) eqn:Hp.
    + rewrite (event_idle_busy sid _ Hp). exists [].
      split; [now rewrite app_nil_r|intros s []].
    + rewrite (event_idle_free sid _ Hp).
      pose proof (onSessionIdle_cases i sid) as H.
      destruct (onSessionIdle sid i) as [p i1]. cbn [fst snd] in H |- *.
      inversion H as [Hn E1 E2|s Hs Ha Hc E1 E2|s Hs Ha Hl Hm Ht E1 E2
                     |s session Hs Ha Hl Hm Ho Hne Hc E1 E2]; subst;
        cbn [host trace].
      * exists []. split; [now rewrite app_nil_r|intros s []].
      * eexists. split; [reflexivity|].
        apply writesOnly_none, ExternalFacts.no_write_unlink.
      * exists []. split; [now rewrite app_nil_r|intros s0 []].
      * eexists. split; [reflexivity|].
        apply writesOnly_app;
          [apply writesOnly_none, ExternalFacts.no_write_mkdir|].
        intros s' [E|[E|[]]]; [|discriminate E].
        injection E as <-. exists s. split; [exact Hs|now left].
  - unfold Plugin.event. step_bind. unfold ret. cbn [fst snd].
    destruct (onMessageUpdated_cases role body i) as [->|(s & Hs & ->)].
    + exists []. split; [now rewrite app_nil_r|intros s []].
    + cbn [host trace]. eexists. split; [reflexivity|].
      apply writesOnly_app;
        [apply writesOnly_none, ExternalFacts.no_write_mkdir|].
      apply writesOnly_one. exists s. split; [exact Hs|right; eauto].
  - exists []. split; [now rewrite app_nil_r|intros s []].
Qed.

End Facts.

(** C2.  When the state file holds a record whose [active] flag is true,
    the external driver's start-up check leaves with exit status 1 and the
    in-host [ralph_start] returns its refusal message; in both cases the
    world — the state file and the list of calls made, hence of writes —
    is the one the start began with. *)
Theorem start_refused_while_active toUpperCase opts now script now' args w s :
  stateFile (fs w) = Some (Json s) -> active s = true ->
  External.runRalphLoop toUpperCase opts now script w = (External.Exit 1, w) /\
  ralph_start now' args w = (alreadyActiveMessage s, w).
Proof.
  intros Hf Ha. pose proof (stored_Json w Hf) as Hs. split.
  - unfold External.runRalphLoop. step_bind. rewrite loadState_spec.
    cbn [fst snd]. rewrite Hs. cbn [isActive]. now rewrite Ha.
  - unfold ralph_start. step_bind. rewrite loadState_spec.
    cbn [fst snd]. rewrite Hs. now rewrite Ha.
Qed.
End PluginFacts.

(** ** Integers as text and the argument loop *)












Section Unlimited.
Import External ExternalSpec ExternalFacts Plugin PluginSpec PluginFacts.









End Unlimited.

(** ** Writes of both drivers *)

(** C8. After the record is created, every write of the state file by the
    external driver writes the created record with [iteration] changed, and
    every write by the in-host handler writes the record it loaded with
    [iteration] or [lastOutput] changed: [prompt], [completionPromise] and
    the other fields are those of the record before the write. *)
Theorem prompt_and_promise_never_rewritten :
  (forall toUpperCase opts now script w,
     exists new,
       trace (snd (External.runRalphLoop toUpperCase opts now script w))
       = trace w ++ new /\
       writesOnly
         (differsOnlyInProgress (External.initialState opts now)) new) /\
  (forall toUpperCase clientCanPrompt ev i,
     exists new,
       trace (Plugin.host (snd (Plugin.event toUpperCase clientCanPrompt ev i)))
       = trace (Plugin.host i) ++ new /\
       writesOnly
         (fun s' => exists s, stored (Plugin.host i) = Some s /\
                              differsOnlyInProgress s s') new).
Proof.
  split.
  - intros toUpperCase opts now script w.
    destruct (ExternalFacts.runRalphLoop_writes toUpperCase opts now script w)
      as (new & E & H).
    exists new. split; [exact E|].
    revert H. apply writesOnly_weaken. intros s (n & ->).
    apply differsOnlyInProgress_iteration.
  - intros toUpperCase clientCanPrompt ev i.
    destruct (PluginFacts.event_writes toUpperCase clientCanPrompt ev i)
      as (new & E & H).
    exists new. split; [exact E|].
    revert H. apply writesOnly_weaken.
    intros s' (s & Hs & [->|(text & ->)]); exists s; split; auto.
    + apply differsOnlyInProgress_iteration.
    + apply differsOnlyInProgress_lastOutput.
Qed.

(** ** Instances *)

Lemma start_refused_while_active_witness :
  stateFile (fs Sample.runningWorld) = Some (Json Sample.runningState) /\
  active Sample.runningState = true /\
  External.runRalphLoop asciiUpper Sample.threeIterations
    (lit "2025-01-02T00:00:00.000Z") [Sample.quietRun] Sample.runningWorld
  = (External.Exit 1, Sample.runningWorld) /\
  Plugin.ralph_start (lit "2025-01-02T00:00:00.000Z") Sample.startAgain
    Sample.runningWorld
  = (Plugin.alreadyActiveMessage Sample.runningState, Sample.runningWorld).
Proof.
  split; [reflexivity|]. split; [reflexivity|].
  apply (PluginFacts.start_refused_while_active asciiUpper
           Sample.threeIterations (lit "2025-01-02T00:00:00.000Z")
           [Sample.quietRun] (lit "2025-01-02T00:00:00.000Z")
           Sample.startAgain Sample.runningWorld);
    reflexivity.
Defined.

Lemma max_iterations_runs_exactly_witness :
  (0 < External.maxIterations Sample.threeIterations)%Z /\
  isActive (stored Sample.freshWorld) = false /\
  Z.of_nat (List.length [Sample.quietRun; Sample.quietRun; Sample.quietRun])
  = External.maxIterations Sample.threeIterations /\
  forallb (ExternalSpec.uneventful asciiUpper Sample.threeIterations)
    [Sample.quietRun; Sample.quietRun; Sample.quietRun] = true /\
  let r := External.runRalphLoop asciiUpper Sample.threeIterations
             (lit "2025-01-02T00:00:00.000Z")
             ([Sample.quietRun; Sample.quietRun; Sample.quietRun]
                ++ [Sample.quietRun])
             Sample.freshWorld in
  fst r = External.Returned /\
  External.exitStatus (fst r) = Some 0%Z /\
  stateFile (fs (snd r)) = None /\
  spawns (trace (snd r)) =
    spawns (trace Sample.freshWorld)
    ++ map (fun i =>
              External.spawnArgv Sample.threeIterations
                (External.buildPrompt
                   (withIteration i
                      (External.initialState Sample.threeIterations
                         (lit "2025-01-02T00:00:00.000Z")))))
           [1; 2; 3]%Z.
Proof.
  split; [reflexivity|]. split; [reflexivity|].
  split; [reflexivity|]. split; [vm_compute; reflexivity|].
  apply (proj1 (ExternalFacts.max_iterations_runs_exactly asciiUpper
                  Sample.threeIterations (lit "2025-01-02T00:00:00.000Z")
                  Sample.freshWorld ltac:(reflexivity) ltac:(reflexivity))
           [Sample.quietRun; Sample.quietRun; Sample.quietRun]
           [Sample.quietRun]);
    [reflexivity|vm_compute; reflexivity].
Defined.

Lemma agent_failure_stops_the_loop_witness :
  maxIterationsReached (External.maxIterations Sample.threeIterations)
    (iteration (External.initialState Sample.threeIterations [])) = false /\
  External.agent Sample.failedRun
  = External.AgentExited [] (lit "model not found") 1 /\
  1%Z <> 0%Z /\
  External.detectPlaceholderPluginError (lit "model not found") = false /\
  External.detectPlaceholderPluginError [] = false /\
  let r := External.mainLoop asciiUpper Sample.threeIterations
             [Sample.failedRun; Sample.quietRun]
             (External.initialState Sample.threeIterations [])
             Sample.runningWorld in
  fst r = External.Exit 1 /\ External.exitStatus (fst r) = Some 1%Z /\
  stateFile (fs (snd r)) = None /\
  exists new,
    trace (snd r) = trace Sample.runningWorld ++ new /\
    spawns new =
      [External.spawnArgv Sample.threeIterations
         (External.buildPrompt
            (External.initialState Sample.threeIterations []))] /\
    existsb isGit new = false /\
    existsb isStateWrite new = false.
Proof.
  split; [reflexivity|]. split; [reflexivity|]. split; [discriminate|].
  split; [reflexivity|]. split; [reflexivity|].
  apply (ExternalFacts.agent_failure_stops_the_loop asciiUpper
           Sample.threeIterations Sample.failedRun [Sample.quietRun]
           (External.initialState Sample.threeIterations [])
           Sample.runningWorld (result := []) (stderr := lit "model not found")
           (c := 1%Z));
    [reflexivity|reflexivity|discriminate|reflexivity|reflexivity].
Defined.



(** * Further properties *)

(** ** The state file: how the three operations compose *)




(** ** The tools of the in-host driver *)

Section Tools.
Import Plugin PluginTools.

Lemma ralph_start_spec now args w :
  isActive (stored w) = false ->
  ralph_start now args w =
  (startedMessage (newState now args) args,
   {| fs := {| stateDirExists := true;
               stateFile := Some (Json (newState now args)) |};
      trace := trace w ++ mkdirEvents (fs w)
                 ++ [EvWriteState (newState now args)] |}).
Proof.
  intros H. unfold ralph_start. step_bind. rewrite loadState_spec.
  cbn [fst snd]. destruct (stored w) as [existing|]; cbn [isActive] in H.
  - rewrite H. step_bind. now rewrite saveState_spec.
  - step_bind. now rewrite saveState_spec.
Qed.

Lemma newState_promise_nonempty now args :
  completionPromise (newState now args) <> [].
Proof.
  unfold newState. cbn [completionPromise]. unfold orElse.
  destruct (argCompletionPromise args) as [[|c p]|]; cbn; discriminate.
Qed.

(** X2.  When no loop is active — no state file, an unparsable one, or a
    record whose [active] flag is false — [ralph_start] overwrites the file
    with one write of a record that is active, at iteration 1, with the
    given prompt; a missing [maxIterations] is stored as 0, and a missing
    or empty [completionPromise] as [COMPLETE], so the stored marker is
    never empty.  A load that follows returns that record. *)
Theorem ralph_start_creates_the_loop now args w :
  isActive (stored w) = false ->
  let r := ralph_start now args w in
  let created := newState now args in
  fst r = startedMessage created args /\
  stored (snd r) = Some created /\
  trace (snd r) = trace w ++ mkdirEvents (fs w) ++ [EvWriteState created] /\
  active created = true /\ iteration created = 1%Z /\
  prompt created = argPrompt args /\
  completionPromise created <> [] /\
  maxIterations created = match argMaxIterations args with
                          | Some n => n
                          | None => 0%Z
                          end /\
  completionPromise created = match argCompletionPromise args with
                              | Some (c :: p) => c :: p
                              | _ => lit "COMPLETE"
                              end.
Proof.
  intros H r created. subst r created. rewrite (ralph_start_spec now args w H).
  cbn [fst snd]. do 6 (split; [reflexivity|]). split; [|split].
  - apply newState_promise_nonempty.
  - reflexivity.
  - unfold newState, orElse. cbn [completionPromise].
    now destruct (argCompletionPromise args) as [[|c p]|].
Qed.

Lemma ralph_cancel_active w s :
  stored w = Some s -> active s = true ->
  ralph_cancel w =
  ([55357; 57041]%N ++ lit " Cancelled Ralph loop at iteration "
     ++ numberToString (iteration s),
   {| fs := {| stateDirExists := stateDirExists (fs w); stateFile := None |};
      trace := trace w ++ unlinkEvents (fs w) |}).
Proof.
  intros Hs Ha. unfold ralph_cancel. step_bind. rewrite loadState_spec.
  cbn [fst snd]. rewrite Hs, Ha. step_bind. now rewrite clearState_spec.
Qed.

Lemma ralph_cancel_inactive w :
  isActive (stored w) = false ->
  ralph_cancel w = (lit "No active Ralph loop to cancel", w).
Proof.
  intros H. unfold ralph_cancel. step_bind. rewrite loadState_spec.
  cbn [fst snd]. destruct (stored w) as [s|]; cbn [isActive] in H.
  - now rewrite H.
  - reflexivity.
Qed.

(** X3.  [ralph_cancel] on an active loop removes the state file with one
    unlink and reports the iteration the loop was at; a cancel that
    follows finds nothing to cancel and changes nothing, and a start that
    follows is accepted. *)
Theorem ralph_cancel_then_cancel_or_start now args w s :
  stored w = Some s -> active s = true ->
  let r := ralph_cancel w in
  fst r = [55357; 57041]%N ++ lit " Cancelled Ralph loop at iteration "
                 ++ numberToString (iteration s) /\
  stateFile (fs (snd r)) = None /\
  trace (snd r) = trace w ++ [EvUnlink] /\
  ralph_cancel (snd r) = (lit "No active Ralph loop to cancel", snd r) /\
  stored (snd (ralph_start now args (snd r))) = Some (newState now args).
Proof.
  intros Hs Ha r. subst r. rewrite (ralph_cancel_active w Hs Ha).
  cbn [fst snd fs trace stateFile]. do 2 (split; [reflexivity|]).
  split; [|split].
  - unfold unlinkEvents. unfold stored in Hs.
    destruct (stateFile (fs w)); [reflexivity|discriminate].
  - now apply ralph_cancel_inactive.
  - now rewrite ralph_start_spec.
Qed.

Lemma strEq_eq a : forall b, strEq a b = true -> a = b.
Proof.
  induction a as [|x a IH]; intros [|y b] H; try discriminate; [reflexivity|].
  cbn in H. apply andb_true_iff in H as [H1 H2].
  apply N.eqb_eq in H1. subst y. f_equal. now apply IH.
Qed.

Lemma strEq_refl a : strEq a a = true.
Proof. induction a as [|x a IH]; [reflexivity|]. cbn. now rewrite N.eqb_refl. Qed.

Lemma annotate_cases state m :
  msgRole (annotate state m) = msgRole m /\
  msgRest (annotate state m) = msgRest m /\
  (annotate state m = m \/
   exists s, msgRole m = Some (lit "user") /\
     msgContent m = ContentString s /\
     msgContent (annotate state m)
     = ContentString (ralphContext state ++ nl ++ nl ++ s)).
Proof.
  destruct m as [[r|] [s| | |] rest]; unfold annotate;
    cbn [msgRole msgContent msgRest];
    try (split; [reflexivity|split; [reflexivity|left; reflexivity]]).
  destruct (strEq r (lit "user")) eqn:He; cbn [msgRole msgContent msgRest];
    (split; [reflexivity|split; [reflexivity|]]); [|now left].
  apply strEq_eq in He. subst r. right. exists s. now repeat split.
Qed.

(** X4.  The [chat.message] hook changes nothing but the text of user
    messages: it leaves the world as it is, keeps the number and order of
    the messages, their roles and their other properties, returns a
    message that is not a user message with string content as it was, and
    puts the banner of the stored loop and an empty line in front of a
    user's text, which stays whole at the end.  A message is changed only
    while the state file holds an active record. *)
Theorem chat_message_only_prefixes_user_text messages w :
  let r := chat_message messages w in
  snd r = w /\
  match messages, fst r with
  | None, None => True
  | Some l, Some l' =>
      Forall2
        (fun m m' =>
           msgRole m' = msgRole m /\ msgRest m' = msgRest m /\
           (m' = m \/
            exists s state,
              stored w = Some state /\ active state = true /\
              msgRole m = Some (lit "user") /\
              msgContent m = ContentString s /\
              msgContent m' = ContentString
                                (ralphContext state ++ nl ++ nl ++ s)))
        l l'
  | _, _ => False
  end.
Proof.
  intros r. subst r. unfold chat_message. step_bind. rewrite loadState_spec.
  cbn [fst snd].
  assert (Hsame : forall l : list chatMessage,
            Forall2
              (fun m m' =>
                 msgRole m' = msgRole m /\ msgRest m' = msgRest m /\
                 (m' = m \/
                  exists s state,
                    stored w = Some state /\ active state = true /\
                    msgRole m = Some (lit "user") /\
                    msgContent m = ContentString s /\
                    msgContent m' = ContentString
                                      (ralphContext state ++ nl ++ nl ++ s)))
              l l).
  { induction l; constructor; auto. }
  destruct (stored w) as [state|] eqn:Hs.
  - destruct (active state) eqn:Ha.
    + destruct messages as [l|]; cbn [ret fst snd]; split; trivial.
      induction l as [|m l IH]; cbn [map]; constructor; [|exact IH].
      destruct (annotate_cases state m) as (H1 & H2 & [H3|(s & H3 & H4 & H5)]).
      * repeat split; auto.
      * repeat split; auto. right. exists s, state. now repeat split.
    + destruct messages as [l|]; cbn [ret fst snd]; split; trivial.
  - destruct messages as [l|]; cbn [ret fst snd]; split; trivial.
Qed.

Lemma statusMessage_head state :
  exists rest, statusMessage state = 55357%N :: rest.
Proof. unfold statusMessage. cbn [List.concat app]. eauto. Qed.

(** X5.  [ralph_status] reads and never writes: the world is the same
    after the call, and the answer is the text [No active Ralph loop]
    exactly when the state file holds no active record. *)
Theorem ralph_status_is_read_only w :
  let r := ralph_status w in
  snd r = w /\
  (fst r = lit "No active Ralph loop" <-> isActive (stored w) = false).
Proof.
  intros r. subst r. unfold ralph_status. step_bind. rewrite loadState_spec.
  cbn [fst snd]. destruct (stored w) as [s|]; cbn [isActive].
  - destruct (active s); cbn [ret fst snd]; split; trivial.
    + split; [|discriminate].
      destruct (statusMessage_head s) as (rest & ->). discriminate.
    + now split.
  - cbn [ret fst snd]. now split.
Qed.

End Tools.

(** ** The external driver, pass by pass *)

Module LoopFacts.
Import External ExternalSpec ExternalFacts LoopSpec.

Section Facts.
Variable toUpperCase : char -> jsstring.
Variable opts : options.
Abbreviation mainLoop := (External.mainLoop toUpperCase opts).
Abbreviation classify := (LoopSpec.classify toUpperCase opts).

Lemma cleared_spec w : clearState w = (tt, cleared w).
Proof. apply clearState_spec. Qed.

(** One pass of the loop, by the verdict on the environment's answer. *)
Lemma mainLoop_pass env script state w :
  maxIterationsReached (maxIterations opts) (iteration state) = false ->
  mainLoop (env :: script) state w =
  match classify env with
  | Stops o => (o, cleared (afterSpawn opts state w))
  | Continues b => mainLoop script (nextState state) (afterPass opts b env state w)
  end.
Proof.
  intros Hmax. rewrite mainLoop_unfold, Hmax. step_bind.
  rewrite prelude_spec. cbn [fst snd].
  change {| fs := _; trace := _ |} with (afterSpawn opts state w).
  unfold LoopSpec.classify. destruct (agent env) as [result stderr code|].
  - destruct (_ || _); [step_bind; now rewrite cleared_spec|].
    destruct (negb _); [step_bind; now rewrite cleared_spec|].
    destruct (checkCompletion _ _ _); [step_bind; now rewrite cleared_spec|].
    step_bind. rewrite autoCommitStep_spec. cbn [fst snd].
    step_bind. rewrite saveState_spec. cbn [fst snd fs trace].
    step_bind. unfold emit at 1. cbn [fst snd fs trace].
    f_equal. unfold afterPass, savedDisk. f_equal.
    now rewrite <- !app_assoc.
  - step_bind. rewrite saveState_spec. cbn [fst snd fs trace].
    step_bind. unfold emit at 1. cbn [fst snd fs trace].
    f_equal. unfold afterPass, savedDisk. f_equal.
    now rewrite <- !app_assoc.
Qed.

Lemma mainLoop_reached script state w :
  maxIterationsReached (maxIterations opts) (iteration state) = true ->
  mainLoop script state w = (Returned, cleared w).
Proof.
  intros H. rewrite mainLoop_unfold, H. step_bind. now rewrite cleared_spec.
Qed.

Lemma mainLoop_exhausted state w :
  maxIterationsReached (maxIterations opts) (iteration state) = false ->
  mainLoop [] state w = (AwaitingAgent state, w).
Proof. intros H. now rewrite mainLoop_unfold, H. Qed.

(** An induction principle for what holds of every run of the loop. *)
Lemma mainLoop_invariant (P : RalphState -> world -> outcome * world -> Prop) :
  (forall state w,
     maxIterationsReached (maxIterations opts) (iteration state) = true ->
     P state w (Returned, cleared w)) ->
  (forall state w,
     maxIterationsReached (maxIterations opts) (iteration state) = false ->
     P state w (AwaitingAgent state, w)) ->
  (forall env state w o,
     maxIterationsReached (maxIterations opts) (iteration state) = false ->
     classify env = Stops o ->
     P state w (o, cleared (afterSpawn opts state w))) ->
  (forall env state w b r,
     maxIterationsReached (maxIterations opts) (iteration state) = false ->
     classify env = Continues b ->
     P (nextState state) (afterPass opts b env state w) r ->
     P state w r) ->
  forall script state w, P state w (mainLoop script state w).
Proof.
  intros Hreached Hexhausted Hstop Hcont.
  induction script as [|env script IH]; intros state w;
    destruct (maxIterationsReached (maxIterations opts) (iteration state))
      eqn:Hmax.
  - rewrite mainLoop_reached by exact Hmax. now apply Hreached.
  - rewrite mainLoop_exhausted by exact Hmax. now apply Hexhausted.
  - rewrite mainLoop_reached by exact Hmax. now apply Hreached.
  - rewrite mainLoop_pass by exact Hmax.
    destruct (classify env) as [o|b] eqn:Hc.
    + now apply Hstop with (env := env).
    + apply Hcont with (env := env) (b := b); auto.
Qed.

Lemma classify_stops env o :
  classify env = Stops o -> exitStatus o <> None.
Proof.
  unfold LoopSpec.classify. destruct (agent env) as [result stderr code|];
    [|discriminate].
  destruct (_ || _); [intros E; injection E as <-; discriminate|].
  destruct (negb _); [intros E; injection E as <-; discriminate|].
  destruct (checkCompletion _ _ _); [|discriminate].
  intros E; injection E as <-; discriminate.
Qed.

Lemma writes_app a b : writes (a ++ b) = writes a ++ writes b.
Proof.
  induction a as [|e a IH]; [reflexivity|]. cbn.
  destruct (writeOf e); cbn; now rewrite IH.
Qed.

Lemma writes_none evs : existsb isStateWrite evs = false -> writes evs = [].
Proof.
  induction evs as [|e evs IH]; [reflexivity|]. cbn.
  intros H. apply orb_false_iff in H as [He H].
  destruct e; try discriminate He; cbn; auto.
Qed.

Lemma writes_cleared w : writes (trace (cleared w)) = writes (trace w).
Proof.
  unfold cleared. cbn [trace]. rewrite writes_app.
  now rewrite (writes_none _ (no_write_unlink _)), app_nil_r.
Qed.

Lemma writes_afterSpawn state w :
  writes (trace (afterSpawn opts state w)) = writes (trace w).
Proof.
  unfold afterSpawn. cbn [trace]. rewrite !writes_app.
  rewrite (writes_none _ (no_write_plugins opts _)). cbn. now rewrite app_nil_r.
Qed.

Lemma writes_afterPass b env state w :
  writes (trace (afterPass opts b env state w))
  = writes (trace w) ++ [nextState state].
Proof.
  unfold afterPass. cbn [trace]. rewrite !writes_app, writes_afterSpawn.
  rewrite (writes_none _ (no_write_mkdir _)).
  replace (writes (if b then [] else gitEvents opts state env))
    with (@nil RalphState)
    by (destruct b; [reflexivity|symmetry; apply writes_none, no_write_git]).
  reflexivity.
Qed.

Lemma spawns_cleared w : spawns (trace (cleared w)) = spawns (trace w).
Proof.
  unfold cleared. cbn [trace].
  now rewrite spawns_app, spawns_unlinkEvents, app_nil_r.
Qed.

Lemma spawns_afterSpawn state w :
  spawns (trace (afterSpawn opts state w))
  = spawns (trace w) ++ [spawnArgv opts (buildPrompt state)].
Proof.
  unfold afterSpawn. cbn [trace]. now rewrite spawns_app, spawns_prelude.
Qed.

Lemma spawns_afterPass b env state w :
  spawns (trace (afterPass opts b env state w))
  = spawns (trace w) ++ [spawnArgv opts (buildPrompt state)].
Proof.
  unfold afterPass. cbn [trace]. rewrite !spawns_app, spawns_afterSpawn.
  rewrite spawns_mkdirEvents.
  replace (spawns (if b then [] else gitEvents opts state env))
    with (@nil (list jsstring))
    by (destruct b; [reflexivity|symmetry; apply spawns_gitEvents]).
  cbn. now rewrite !app_nil_r.
Qed.

(** A run of passes after each of which the loop goes on. *)
Lemma mainLoop_goes_on good : forall rest state w,
  forallb (goesOn toUpperCase opts) good = true ->
  (forall j, (j < List.length good)%nat ->
     maxIterationsReached (maxIterations opts)
       (iteration state + Z.of_nat j) = false) ->
  exists w',
    mainLoop (good ++ rest) state w
    = mainLoop rest (stateAfter (List.length good) state) w' /\
    fs w' = diskAfter good state (fs w) /\
    spawns (trace w')
    = spawns (trace w)
      ++ map (fun i => spawnArgv opts (buildPrompt (withIteration i state)))
             (iterationNumbers (iteration state) (List.length good)) /\
    writes (trace w')
    = writes (trace w)
      ++ map (fun i => withIteration i state)
             (iterationNumbers (iteration state + 1) (List.length good)).
Proof.
  induction good as [|env good IH]; intros rest state w Hgo Hmax.
  - exists w. cbn. now rewrite !app_nil_r.
  - cbn [forallb] in Hgo. apply andb_true_iff in Hgo as [He Hgo].
    cbn [app]. rewrite mainLoop_pass
      by (now rewrite <- (Hmax 0%nat), Z.add_0_r by (cbn; lia)).
    unfold goesOn in He. destruct (classify env) as [o|b]; [discriminate|].
    destruct (IH rest (nextState state) (afterPass opts b env state w) Hgo)
      as (w' & E & Hfs & Hsp & Hwr).
    { intros j Hj. unfold nextState. rewrite iteration_withIteration.
      rewrite <- (Hmax (S j)) by (cbn; lia). f_equal. lia. }
    exists w'. cbn [List.length stateAfter]. split; [exact E|]. split; [|split].
    + rewrite Hfs. unfold diskAfter. now destruct good.
    + rewrite Hsp, spawns_afterPass, iterationNumbers_S. cbn [map].
      rewrite withIteration_self, <- app_assoc. cbn [app].
      unfold nextState. rewrite iteration_withIteration. reflexivity.
    + rewrite Hwr, writes_afterPass, iterationNumbers_S. cbn [map].
      rewrite <- app_assoc. cbn [app].
      unfold nextState. rewrite iteration_withIteration. reflexivity.
Qed.

Lemma goesOn_uneventful_or_threw env :
  uneventful toUpperCase opts env || threw env = true ->
  goesOn toUpperCase opts env = true.
Proof.
  unfold goesOn, LoopSpec.classify, uneventful, threw.
  destruct (agent env) as [result stderr code|]; [|reflexivity].
  rewrite orb_false_r. intros H.
  apply andb_true_iff in H as [H H3]. apply andb_true_iff in H as [H1 H2].
  apply negb_true_iff in H1. apply negb_true_iff in H3.
  now rewrite H1, H2, H3.
Qed.

Lemma forallb_goesOn good :
  forallb (fun env => uneventful toUpperCase opts env || threw env) good = true ->
  forallb (goesOn toUpperCase opts) good = true.
Proof.
  induction good as [|env good IH]; [reflexivity|]. cbn [forallb].
  intros H. apply andb_true_iff in H as [He H].
  now rewrite (goesOn_uneventful_or_threw _ He), IH.
Qed.

Abbreviation startedWorld now w :=
  {| fs := savedDisk (initialState opts now);
     trace := trace w ++ mkdirEvents (fs w)
                ++ [EvWriteState (initialState opts now)] |}.

Lemma writes_started now w :
  writes (trace (startedWorld now w))
  = writes (trace w) ++ [initialState opts now].
Proof.
  cbn [trace]. rewrite !writes_app.
  now rewrite (writes_none _ (no_write_mkdir _)).
Qed.

Lemma spawns_started now w :
  spawns (trace (startedWorld now w)) = spawns (trace w).
Proof.
  cbn [trace]. rewrite !spawns_app, spawns_mkdirEvents. cbn.
  now rewrite !app_nil_r.
Qed.

(** X6.  However a run of the external driver that was allowed to start
    ends — completion, max iterations, sentinel, agent failure — the state
    file is gone when the process ends; and as long as the driver waits
    for the agent, the file holds the very record the driver has in
    memory, with its [active] flag set. *)
Theorem a_finished_run_leaves_no_state now script w :
  isActive (stored w) = false ->
  let r := runRalphLoop toUpperCase opts now script w in
  match fst r with
  | AwaitingAgent state =>
      stored (snd r) = Some state /\ active state = true
  | _ => stateFile (fs (snd r)) = None
  end.
Proof.
  intros Hact r. subst r. rewrite runRalphLoop_starts by exact Hact.
  pattern (mainLoop script (initialState opts now) (startedWorld now w)).
  assert (H0 : stored (startedWorld now w) = Some (initialState opts now)
               /\ active (initialState opts now) = true) by now split.
  revert H0.
  generalize (startedWorld now w) as w0.
  generalize (initialState opts now) as st0.
  intros st0 w0.
  apply (mainLoop_invariant
           (fun state w r =>
              stored w = Some state /\ active state = true ->
              match fst r with
              | AwaitingAgent state' =>
                  stored (snd r) = Some state' /\ active state' = true
              | _ => stateFile (fs (snd r)) = None
              end)).
  - intros state w1 _ _. reflexivity.
  - intros state w1 _ H. exact H.
  - intros env state w1 o _ Hc _. apply classify_stops in Hc.
    destruct o; cbn [fst snd]; try reflexivity. now elim Hc.
  - intros env state w1 b r _ _ IH [_ Ha]. apply IH. now split.
Qed.


Lemma not_reached_below j n :
  (n <= 0 \/ 1 + Z.of_nat j <= n)%Z ->
  maxIterationsReached n (1 + Z.of_nat j) = false.
Proof.
  intros H. unfold maxIterationsReached. apply andb_false_iff.
  destruct H as [H|H]; [left|right]; apply Z.ltb_ge; lia.
Qed.

(** X8.  When the output of a pass with exit status 0 and no sentinel
    satisfies the completion matcher, and the passes before it were
    uneventful or threw, the run ends there: the loop is left with exit
    status 0 and the state file removed, the agent has been spawned for
    the iterations up to that one and is not spawned again, and the record
    last written carries that iteration number. *)
Theorem completion_ends_the_run now good last rest w result stderr :
  isActive (stored w) = false ->
  forallb (fun env => uneventful toUpperCase opts env || threw env) good = true ->
  agent last = AgentExited result stderr 0 ->
  detectPlaceholderPluginError stderr = false ->
  detectPlaceholderPluginError result = false ->
  checkCompletion toUpperCase result (completionPromise opts) = true ->
  (maxIterations opts <= 0 \/ Z.of_nat (S (List.length good)) <= maxIterations opts)%Z ->
  let r := runRalphLoop toUpperCase opts now (good ++ last :: rest) w in
  fst r = Returned /\ exitStatus (fst r) = Some 0%Z /\
  stateFile (fs (snd r)) = None /\
  spawns (trace (snd r))
  = spawns (trace w)
    ++ map (fun i => spawnArgv opts
                       (buildPrompt (withIteration i (initialState opts now))))
           (iterationNumbers 1 (S (List.length good))) /\
  writes (trace (snd r))
  = writes (trace w)
    ++ map (fun i => withIteration i (initialState opts now))
           (iterationNumbers 1 (S (List.length good))).
Proof.
  intros Hact Hgood Ha He Ho Hc Hmax r. subst r.
  rewrite runRalphLoop_starts by exact Hact.
  destruct (mainLoop_goes_on good (last :: rest) (initialState opts now)
              (startedWorld now w) (forallb_goesOn good Hgood))
    as (w' & E & _ & Hsp & Hwr).
  { intros j Hj. cbn [initialState iteration]. apply not_reached_below. lia. }
  rewrite E, mainLoop_pass.
  - unfold LoopSpec.classify. rewrite Ha, He, Ho, Hc. cbn [orb negb Z.eqb fst snd exitStatus].
    split; [reflexivity|]. split; [reflexivity|]. split; [reflexivity|].
    rewrite spawns_cleared, spawns_afterSpawn, writes_cleared, writes_afterSpawn.
    rewrite Hsp, Hwr, spawns_started, writes_started. split.
    + rewrite <- app_assoc. f_equal.
      rewrite stateAfter_withIteration. cbn [initialState iteration].
      unfold iterationNumbers. rewrite seq_S, map_app, map_app. reflexivity.
    + rewrite <- app_assoc. f_equal. rewrite iterationNumbers_S. cbn [map app].
      cbn [initialState iteration].
      now rewrite <- (withIteration_self (initialState opts now)) at 1.
  - rewrite iteration_stateAfter. cbn [initialState iteration].
    apply not_reached_below. lia.
Qed.

(** X9.  The placeholder sentence in either stream ends the run at once
    with exit status 1 and the state file removed, whatever the exit code
    of the agent and even when the output also holds the completion tag:
    after the spawn no git command is run and no state is written. *)
Theorem placeholder_sentinel_stops_the_run env script state w result stderr code :
  maxIterationsReached (maxIterations opts) (iteration state) = false ->
  agent env = AgentExited result stderr code ->
  contains stderr sentinel \/ contains result sentinel ->
  let r := mainLoop (env :: script) state w in
  fst r = Exit 1 /\ stateFile (fs (snd r)) = None /\
  exists new,
    trace (snd r) = trace w ++ new /\
    spawns new = [spawnArgv opts (buildPrompt state)] /\
    existsb isGit new = false /\
    existsb isStateWrite new = false.
Proof.
  intros Hmax Ha Hs r. subst r. rewrite mainLoop_pass by exact Hmax.
  assert (Hd : detectPlaceholderPluginError stderr
               || detectPlaceholderPluginError result = true).
  { unfold detectPlaceholderPluginError.
    destruct Hs as [(pre & post & ->)|(pre & post & ->)].
    - fold sentinel. now rewrite includes_complete.
    - fold sentinel. rewrite includes_complete. apply orb_true_r. }
  unfold LoopSpec.classify. rewrite Ha, Hd. cbn [fst snd].
  split; [reflexivity|]. split; [reflexivity|].
  exists (pluginsEvents opts (fs w) ++ [spawnEvent opts state]
            ++ unlinkEvents (fs w)).
  split; [|split].
  - unfold cleared, afterSpawn. cbn [trace fs]. rewrite <- !app_assoc.
    do 3 f_equal. unfold unlinkEvents. now destruct (disablePlugins opts).
  - rewrite app_assoc, spawns_app, spawns_prelude, spawns_unlinkEvents.
    reflexivity.
  - apply no_git_or_write_in_prelude.
Qed.

(** X10.  A pass in which the spawn throws uses up an iteration number
    like any other: with [maxIterations = n > 0] and [n] passes that are
    uneventful or throw, the agent is spawned for the iterations 1 to [n],
    the record is written with the iterations 1 to [n + 1], and the loop
    is then left with exit status 0 and the state file removed. *)
Theorem thrown_passes_use_up_iterations now good rest w :
  (0 < maxIterations opts)%Z ->
  Z.of_nat (List.length good) = maxIterations opts ->
  forallb (fun env => uneventful toUpperCase opts env || threw env) good = true ->
  isActive (stored w) = false ->
  let r := runRalphLoop toUpperCase opts now (good ++ rest) w in
  fst r = Returned /\ stateFile (fs (snd r)) = None /\
  spawns (trace (snd r))
  = spawns (trace w)
    ++ map (fun i => spawnArgv opts
                       (buildPrompt (withIteration i (initialState opts now))))
           (iterationNumbers 1 (List.length good)) /\
  writes (trace (snd r))
  = writes (trace w)
    ++ map (fun i => withIteration i (initialState opts now))
           (iterationNumbers 1 (S (List.length good))).
Proof.
  intros Hpos Hlen Hgood Hact r. subst r.
  rewrite runRalphLoop_starts by exact Hact.
  destruct (mainLoop_goes_on good rest (initialState opts now)
              (startedWorld now w) (forallb_goesOn good Hgood))
    as (w' & E & _ & Hsp & Hwr).
  { intros j Hj. cbn [initialState iteration]. apply not_reached_below. lia. }
  rewrite E, mainLoop_reached.
  - cbn [fst snd]. split; [reflexivity|]. split; [reflexivity|].
    rewrite spawns_cleared, writes_cleared, Hsp, Hwr.
    rewrite spawns_started, writes_started. split; [reflexivity|].
    rewrite <- app_assoc. f_equal. rewrite iterationNumbers_S. cbn [map app].
    cbn [initialState iteration].
    now rewrite <- (withIteration_self (initialState opts now)) at 1.
  - rewrite iteration_stateAfter. cbn [initialState iteration].
    unfold maxIterationsReached. apply andb_true_iff.
    split; apply Z.ltb_lt; lia.
Qed.

(** Git commands in a trace *)

Lemma withoutGit_app a b : withoutGit (a ++ b) = withoutGit a ++ withoutGit b.
Proof. apply filter_app. Qed.

Lemma withoutGit_id evs : existsb isGit evs = false -> withoutGit evs = evs.
Proof.
  unfold withoutGit.
  induction evs as [|e evs IH]; [reflexivity|]. cbn [filter existsb].
  intros H. apply orb_false_iff in H as [He H]. rewrite He. cbn [negb].
  now rewrite IH.
Qed.

Lemma no_git_mkdir d : existsb isGit (mkdirEvents d) = false.
Proof. unfold mkdirEvents. now destruct (stateDirExists d). Qed.

Lemma no_git_unlink d : existsb isGit (unlinkEvents d) = false.
Proof. unfold unlinkEvents. now destruct (stateFile d). Qed.

Lemma no_git_plugins d : existsb isGit (pluginsEvents opts d) = false.
Proof.
  unfold pluginsEvents, mkdirEvents.
  now destruct (disablePlugins opts), (stateDirExists d).
Qed.

Lemma withoutGit_gitEvents state env : withoutGit (gitEvents opts state env) = [].
Proof.
  unfold gitEvents. destruct (autoCommit opts); [|reflexivity].
  destruct (gitStatus env) as [status|]; [|reflexivity].
  destruct (trim status); [reflexivity|]. now destruct (gitAddOk env).
Qed.

Lemma withoutGit_cleared w :
  withoutGit (trace (cleared w)) = withoutGit (trace w) ++ unlinkEvents (fs w).
Proof.
  unfold cleared. cbn [trace].
  now rewrite withoutGit_app, (withoutGit_id _ (no_git_unlink _)).
Qed.

Lemma withoutGit_afterSpawn state w :
  withoutGit (trace (afterSpawn opts state w))
  = withoutGit (trace w) ++ pluginsEvents opts (fs w) ++ [spawnEvent opts state].
Proof.
  unfold afterSpawn. cbn [trace].
  now rewrite !withoutGit_app, (withoutGit_id _ (no_git_plugins _)).
Qed.

Lemma withoutGit_afterPass b env state w :
  withoutGit (trace (afterPass opts b env state w))
  = withoutGit (trace (afterSpawn opts state w))
    ++ mkdirEvents (fs (afterSpawn opts state w))
    ++ [EvWriteState (nextState state);
        EvSleep (if b then 2000 else 1000)].
Proof.
  unfold afterPass. cbn [trace]. rewrite !withoutGit_app.
  rewrite (withoutGit_id _ (no_git_mkdir _)).
  replace (withoutGit (if b then [] else gitEvents opts state env))
    with (@nil event)
    by (destruct b; [reflexivity|symmetry; apply withoutGit_gitEvents]).
  reflexivity.
Qed.

Lemma classify_agent env1 env2 :
  agent env1 = agent env2 -> classify env1 = classify env2.
Proof. unfold LoopSpec.classify. now intros ->. Qed.

Lemma mainLoop_git_independent script1 : forall script2 state w1 w2,
  map agent script1 = map agent script2 ->
  fs w1 = fs w2 ->
  withoutGit (trace w1) = withoutGit (trace w2) ->
  fst (mainLoop script1 state w1) = fst (mainLoop script2 state w2) /\
  fs (snd (mainLoop script1 state w1)) = fs (snd (mainLoop script2 state w2)) /\
  withoutGit (trace (snd (mainLoop script1 state w1)))
  = withoutGit (trace (snd (mainLoop script2 state w2))).
Proof.
  induction script1 as [|env1 script1 IH];
    intros [|env2 script2] state w1 w2 Hag Hfs Htr; try discriminate Hag;
    destruct (maxIterationsReached (maxIterations opts) (iteration state))
      eqn:Hmax.
  - rewrite !mainLoop_reached by exact Hmax. cbn [fst snd].
    rewrite !withoutGit_cleared, Htr, Hfs. unfold cleared. cbn [fs].
    now rewrite Hfs.
  - rewrite !mainLoop_exhausted by exact Hmax. now cbn [fst snd].
  - rewrite !mainLoop_reached by exact Hmax. cbn [fst snd].
    rewrite !withoutGit_cleared, Htr, Hfs. unfold cleared. cbn [fs].
    now rewrite Hfs.
  - cbn [map] in Hag. injection Hag as Ha Hag.
    rewrite !mainLoop_pass by exact Hmax.
    rewrite (classify_agent env1 env2 Ha).
    assert (Hfs1 : fs (afterSpawn opts state w1) = fs (afterSpawn opts state w2)).
    { unfold afterSpawn. cbn [fs]. now rewrite Hfs. }
    assert (Htr1 : withoutGit (trace (afterSpawn opts state w1))
                   = withoutGit (trace (afterSpawn opts state w2))).
    { now rewrite !withoutGit_afterSpawn, Htr, Hfs. }
    destruct (classify env2) as [o|b].
    + cbn [fst snd]. rewrite !withoutGit_cleared, Htr1, Hfs1.
      unfold cleared. cbn [fs]. now rewrite Hfs1.
    + apply IH; [exact Hag|reflexivity|].
      now rewrite !withoutGit_afterPass, Htr1, Hfs1.
Qed.

(** X11.  Auto-commit is best effort: two runs that get the same answers
    from the agent end in the same way, leave the same state file and make
    the same calls apart from git commands, whatever git answers in one
    and in the other (an error, a clean tree, changes to commit). *)
Theorem git_answers_do_not_matter now script1 script2 w :
  map agent script1 = map agent script2 ->
  let r1 := runRalphLoop toUpperCase opts now script1 w in
  let r2 := runRalphLoop toUpperCase opts now script2 w in
  fst r1 = fst r2 /\ fs (snd r1) = fs (snd r2) /\
  withoutGit (trace (snd r1)) = withoutGit (trace (snd r2)).
Proof.
  intros Hag r1 r2. subst r1 r2.
  destruct (isActive (stored w)) eqn:Hact.
  - unfold runRalphLoop. repeat step_bind. rewrite loadState_spec.
    cbn [fst snd]. rewrite Hact. now cbn.
  - rewrite !runRalphLoop_starts by exact Hact.
    now apply mainLoop_git_independent.
Qed.

(** X12.  With [--no-commit] no git command is ever run. *)
Theorem no_commit_runs_no_git now script w :
  autoCommit opts = false ->
  exists new,
    trace (snd (runRalphLoop toUpperCase opts now script w)) = trace w ++ new /\
    existsb isGit new = false.
Proof.
  intros Hno.
  assert (Hgit : forall state env, gitEvents opts state env = []).
  { intros state env. unfold gitEvents. now rewrite Hno. }
  destruct (isActive (stored w)) eqn:Hact.
  - exists []. unfold runRalphLoop. step_bind. rewrite loadState_spec.
    cbn [fst snd]. rewrite Hact. cbn. now rewrite app_nil_r.
  - rewrite runRalphLoop_starts by exact Hact.
    assert (H : exists new,
      trace (snd (mainLoop script (initialState opts now) (startedWorld now w)))
      = trace (startedWorld now w) ++ new /\ existsb isGit new = false).
    { generalize (startedWorld now w) as w0.
      generalize (initialState opts now) as st0. intros st0 w0.
      apply (mainLoop_invariant
               (fun state w r =>
                  exists new, trace (snd r) = trace w ++ new /\
                              existsb isGit new = false)).
      - intros state w1 _. exists (unlinkEvents (fs w1)).
        split; [reflexivity|apply no_git_unlink].
      - intros state w1 _. exists []. split; [now rewrite app_nil_r|reflexivity].
      - intros env state w1 o _ _.
        exists ((pluginsEvents opts (fs w1) ++ [spawnEvent opts state])
                  ++ unlinkEvents (fs (afterSpawn opts state w1))).
        split.
        + unfold cleared, afterSpawn. cbn [trace fs snd].
          now rewrite <- !app_assoc.
        + rewrite !existsb_app, no_git_plugins, no_git_unlink. reflexivity.
      - intros env state w1 b r _ _ (new & E & Hn).
        exists ((pluginsEvents opts (fs w1) ++ [spawnEvent opts state])
                  ++ (mkdirEvents (fs (afterSpawn opts state w1))
                        ++ [EvWriteState (nextState state);
                            EvSleep (if b then 2000 else 1000)])
                  ++ new).
        split.
        + rewrite E. unfold afterPass, afterSpawn. cbn [trace fs].
          rewrite Hgit. destruct b; cbn [app]; now rewrite <- !app_assoc.
        + rewrite !existsb_app, no_git_plugins, no_git_mkdir, Hn. reflexivity. }
    destruct H as (new & E & Hn).
    exists ((mkdirEvents (fs w) ++ [EvWriteState (initialState opts now)]) ++ new).
    split.
    + rewrite E. cbn [trace]. now rewrite <- !app_assoc.
    + rewrite !existsb_app, no_git_mkdir, Hn. reflexivity.
Qed.

End Facts.
End LoopFacts.

(** ** The in-host driver, event by event *)

Module HostFacts.
Import Plugin PluginSpec PluginFacts.

Section Facts.
Variable toUpperCase : char -> jsstring.
Variable clientCanPrompt : bool.
Abbreviation event := (Plugin.event toUpperCase clientCanPrompt).
Abbreviation onSessionIdle := (Plugin.onSessionIdle toUpperCase clientCanPrompt).

Lemma checkCompletion_empty m : checkCompletion toUpperCase [] m = false.
Proof. now rewrite checkCompletion_regex. Qed.

Lemma completing_text_is_truthy body m :
  checkCompletion toUpperCase (textContent body) m = true ->
  contentTruthy body = true /\ truthy (Some (textContent body)) = true.
Proof.
  intros H.
  assert (Hne : textContent body <> []).
  { intros E. rewrite E, checkCompletion_empty in H. discriminate. }
  destruct body as [s|parts| |]; cbn [textContent contentTruthy] in *;
    try (now elim Hne).
  - destruct s; [now elim Hne|now split].
  - split; [reflexivity|].
    destruct (List.concat _); [now elim Hne|reflexivity].
Qed.

Lemma message_with_completion body i s :
  stored (host i) = Some s -> active s = true ->
  checkCompletion toUpperCase (textContent body) (completionPromise s) = true ->
  event (MessageUpdated (Some (lit "assistant")) body) i =
  (Finished,
   {| isProcessing := isProcessing i;
      host := {| fs := {| stateDirExists := true;
                          stateFile := Some (Json (withLastOutput (textContent body) s)) |};
                 trace := trace (host i) ++ mkdirEvents (fs (host i))
                   ++ [EvWriteState (withLastOutput (textContent body) s)] |} |}).
Proof.
  intros Hs Ha Hc. destruct (completing_text_is_truthy body _ Hc) as [Ht Hn].
  unfold Plugin.event. step_bind. unfold onMessageUpdated. step_bind.
  rewrite liftW_spec, loadState_spec. cbn [fst snd]. rewrite Hs, Ha.
  change (strEq (lit "assistant") (lit "assistant")) with true.
  rewrite Ht, Hn, Hc. cbn [andb].
  rewrite liftW_spec, saveState_spec. reflexivity.
Qed.

(** X13.  Completion in the in-host driver takes two events.  An assistant
    message whose text satisfies the matcher only stores that text as
    [lastOutput] (one write; the loop stays active); the next idle event
    then removes the state file and submits no prompt, whatever the
    iteration number and the limit are. *)
Theorem completion_is_acted_on_at_the_next_idle body sid i s :
  stored (host i) = Some s -> active s = true ->
  isProcessing i = false ->
  checkCompletion toUpperCase (textContent body) (completionPromise s) = true ->
  let r1 := event (MessageUpdated (Some (lit "assistant")) body) i in
  let r2 := event (SessionIdle sid) (snd r1) in
  stored (host (snd r1)) = Some (withLastOutput (textContent body) s) /\
  fst r2 = Finished /\
  stateFile (fs (host (snd r2))) = None /\
  isProcessing (snd r2) = false /\
  trace (host (snd r2)) =
    trace (host i) ++ mkdirEvents (fs (host i))
      ++ [EvWriteState (withLastOutput (textContent body) s); EvUnlink].
Proof.
  intros Hs Ha Hp Hc r1 r2. subst r1 r2.
  rewrite (message_with_completion body i Hs Ha Hc). cbn [fst snd].
  split; [reflexivity|].
  destruct (completing_text_is_truthy body _ Hc) as [_ Hn].
  set (i1 := {| isProcessing := _; host := _ |}).
  assert (Hl : lastOutputCompletes toUpperCase
                 (withLastOutput (textContent body) s) = true).
  { unfold lastOutputCompletes. cbn [lastOutput withLastOutput completionPromise].
    now rewrite Hn, Hc. }
  rewrite (event_idle_free toUpperCase clientCanPrompt sid i1 Hp).
  pose proof (onSessionIdle_cases toUpperCase clientCanPrompt i1 sid) as H.
  destruct (onSessionIdle sid i1) as [p i2]. cbn [fst snd] in H |- *.
  inversion H as [Hn0 E1 E2|s0 Hs0 Ha0 Hc0 E1 E2|s0 Hs0 Ha0 Hl0 Hm0 Ht E1 E2
                 |s0 session Hs0 Ha0 Hl0 Hm0 Ho Hne Hcp E1 E2]; subst.
  - cbn in Hn0. congruence.
  - subst i1. cbn [host fs trace isProcessing stateFile unlinkEvents].
    repeat split; auto. now rewrite <- !app_assoc.
  - cbn in Hs0. injection Hs0 as <-. congruence.
  - cbn in Hs0. injection Hs0 as <-. congruence.
Qed.


(** X15.  Without a session to send to — no session id in the event nor
    in the record (an empty id counts as none), or a client that cannot
    prompt — the idle handler does nothing: the instance, the state file
    and the trace are as before, and the iteration is not advanced. *)
Theorem idle_handler_stalls_without_session sid i s :
  stored (host i) = Some s -> active s = true ->
  isProcessing i = false ->
  lastOutputCompletes toUpperCase s = false ->
  maxIterationsReached (maxIterations s) (iteration s) = false ->
  truthy (orElse sid (sessionId s)) && clientCanPrompt = false ->
  event (SessionIdle sid) i = (Finished, i).
Proof.
  intros Hs Ha Hp Hl Hm Ht.
  rewrite (event_idle_free toUpperCase clientCanPrompt sid i Hp).
  pose proof (onSessionIdle_cases toUpperCase clientCanPrompt i sid) as H.
  destruct (onSessionIdle sid i) as [p i2]. cbn [fst snd] in H.
  inversion H as [Hn0 E1 E2|s0 Hs0 Ha0 Hc0 E1 E2|s0 Hs0 Ha0 Hl0 Hm0 Ht0 E1 E2
                 |s0 session0 Hs0 Ha0 Hl0 Hm0 Ho0 Hne0 Hcp0 E1 E2]; subst.
  - reflexivity.
  - rewrite Hs in Hs0. injection Hs0 as <-. destruct Hc0; congruence.
  - reflexivity.
  - rewrite Hs in Hs0. injection Hs0 as <-.
    rewrite Ho0 in Ht. destruct session0; [now elim Hne0|]. cbn in Ht.
    try rewrite Hcp0 in Ht. discriminate.
Qed.



End Facts.
End HostFacts.

(** ** Escaping and matching, once more *)

(** X17.  [escapeRegex] loses nothing: two markers with the same escaped
    text are the same marker. *)
Theorem escapeRegex_injective a : forall b,
  escapeRegex a = escapeRegex b -> a = b.
Proof.
  assert (Hcons : forall c s, escapeRegex (c :: s)
            = (if needsEscape c then [backslash; c] else [c]) ++ escapeRegex s)
    by reflexivity.
  induction a as [|x a IH]; intros [|y b] H.
  - reflexivity.
  - rewrite Hcons in H. change (escapeRegex []) with (@nil char) in H.
    destruct (needsEscape y); cbn [app] in H; discriminate H.
  - rewrite Hcons in H. change (escapeRegex []) with (@nil char) in H.
    destruct (needsEscape x); cbn [app] in H; discriminate H.
  - rewrite !Hcons in H.
    destruct (needsEscape x) eqn:Hx, (needsEscape y) eqn:Hy; cbn [app] in H.
    + injection H as -> H. f_equal. now apply IH.
    + injection H as E _. rewrite <- E in Hy. vm_compute in Hy. discriminate Hy.
    + injection H as E _. rewrite E in Hx. vm_compute in Hx. discriminate Hx.
    + injection H as -> H. f_equal. now apply IH.
Qed.

Section Substring.
Variable toUpperCase : char -> jsstring.

Lemma matchHere_chars_exact m : forall t,
  matchHere toUpperCase false (chars m) t = startsWith t m.
Proof.
  induction m as [|c m IH]; intros t; [now destruct t|].
  destruct t as [|ch t]; [reflexivity|].
  cbn [chars map matchHere atomMatches startsWith]. now rewrite <- IH.
Qed.

Lemma matchAnywhere_chars_exact m t :
  matchAnywhere toUpperCase false (chars m) t = includes t m.
Proof.
  induction t as [|ch t IH].
  - cbn [matchAnywhere includes]. now rewrite matchHere_chars_exact.
  - cbn [matchAnywhere includes]. now rewrite matchHere_chars_exact, IH.
Qed.

(** X18.  The text that [escapeRegex] returns is a pattern for the
    characters of its argument and nothing else: the pattern always
    parses, and a case-sensitive test with it is the substring test
    [t.includes(m)]. *)
Theorem escaped_pattern_is_substring_test m t :
  parsePattern (escapeRegex m) = Some (chars m) /\
  RegExp.test toUpperCase (escapeRegex m) false t = Some (includes t m).
Proof.
  assert (E : parsePattern (escapeRegex m) = Some (chars m)).
  { rewrite <- (app_nil_r (escapeRegex m)), <- (app_nil_r (chars m)).
    apply parse_escaped; [discriminate|reflexivity]. }
  split; [exact E|]. unfold RegExp.test. rewrite E. cbn [option_map].
  now rewrite matchAnywhere_chars_exact.
Qed.

Lemma matches_minLength ic r s :
  matches toUpperCase ic r s -> (minLength r <= List.length s)%nat.
Proof. induction 1; cbn [minLength List.length] in *; lia. Qed.

Lemma minLength_app r1 r2 : minLength (r1 ++ r2) = (minLength r1 + minLength r2)%nat.
Proof.
  induction r1 as [|[a|a] r1 IH]; cbn [app minLength]; [reflexivity| |]; lia.
Qed.

Lemma minLength_chars m : minLength (chars m) = List.length m.
Proof. induction m; cbn [chars map minLength List.length] in *; [reflexivity|]. now f_equal. Qed.

(** X19.  A text that satisfies the matcher is at least 19 characters
    longer than the marker (the two tags): the bare marker, or any text
    shorter than the tagged marker, is never taken for a completion. *)
Theorem completion_needs_both_tags t m :
  checkCompletion toUpperCase t m = true ->
  (List.length m + 19 <= List.length t)%nat.
Proof.
  rewrite checkCompletion_regex. intros H.
  apply matchAnywhere_iff in H as (pre & s & post & -> & Hm).
  apply matches_minLength in Hm. unfold promiseRegex in Hm.
  rewrite !minLength_app, !minLength_chars in Hm. cbn in Hm.
  rewrite !length_app. lia.
Qed.

Lemma concat_tag_at (pieces : list jsstring) k pre post cp :
  nth_error pieces k = Some (pre ++ lit "<promise>") ->
  nth_error pieces (S k) = Some cp ->
  nth_error pieces (S (S k)) = Some (lit "</promise>" ++ post) ->
  contains (List.concat pieces) (lit "<promise>" ++ cp ++ lit "</promise>").
Proof.
  revert pieces. induction k as [|k IH]; intros pieces H1 H2 H3.
  - destruct pieces as [|a [|b [|c rest]]]; try discriminate.
    cbn in H1, H2, H3. injection H1 as ->. injection H2 as ->. injection H3 as ->.
    exists pre, (post ++ List.concat rest). cbn [List.concat].
    now rewrite <- !app_assoc.
  - destruct pieces as [|a pieces]; [discriminate|].
    destruct (IH pieces H1 H2 H3) as (p & q & E).
    exists (a ++ p), q. cbn [List.concat]. rewrite E. apply app_assoc.
Qed.

(** X20.  Every text the in-host driver writes about a loop — the answer
    of [ralph_start], the answer of [ralph_status] and the banner of the
    [chat.message] hook — contains the marker in tag form, and so
    satisfies the completion matcher for that marker. *)
Theorem tool_texts_satisfy_matcher state args :
  checkCompletion toUpperCase (Plugin.startedMessage state args)
    (completionPromise state) = true /\
  checkCompletion toUpperCase (PluginTools.statusMessage state)
    (completionPromise state) = true /\
  checkCompletion toUpperCase (PluginTools.ralphContext state)
    (completionPromise state) = true.
Proof.
  repeat split; apply checkCompletion_of_tag.
  - unfold Plugin.startedMessage.
    now apply concat_tag_at with (k := 14) (pre := []) (post := []).
  - unfold PluginTools.statusMessage.
    now apply concat_tag_at with (k := 17) (pre := (lit "To complete, output: ")) (post := []).
  - unfold PluginTools.ralphContext.
    now apply concat_tag_at with (k := 7) (pre := (lit "[Complete by outputting: ")) (post := (lit "]")).
Qed.


End Substring.


(** ** The command line of the external driver *)

Module CliFacts.
Import External ExternalTools.

Lemma parseLoop_done o parts :
  parseLoop [] o parts
  = match join parts with
    | [] => ParseExit 1
    | p => Parsed (setPrompt p o)
    end.
Proof. reflexivity. Qed.

Lemma parseLoop_inv n : forall args o parts,
  (List.length args <= n)%nat ->
  match parseLoop args o parts with
  | ParseExit c => c = 1%Z
  | Parsed o' =>
      prompt o' <> [] /\ completionPromise o' <> []
      \/ prompt o' <> [] /\ completionPromise o' = completionPromise o
  end.
Proof.
  assert (Hnil : forall o parts,
    match parseLoop [] o parts with
    | ParseExit c => c = 1%Z
    | Parsed o' =>
        prompt o' <> [] /\ completionPromise o' <> []
        \/ prompt o' <> [] /\ completionPromise o' = completionPromise o
    end).
  { intros o parts. rewrite parseLoop_done.
    destruct (join parts) eqn:E; [reflexivity|].
    right. split; [discriminate|reflexivity]. }
  induction n as [|n IH]; intros [|arg rest] o parts Hlen; try apply Hnil.
  - cbn in Hlen. lia.
  - cbn [List.length] in Hlen. cbn [parseLoop].
    destruct (strEq arg (lit "--max-iterations")).
    { destruct rest as [|[|c val] rest']; try reflexivity.
      destruct (parseInt (c :: val)); [|reflexivity].
      cbn [List.length] in Hlen.
      specialize (IH rest' (setMaxIterations z o) parts ltac:(lia)).
      exact IH. }
    destruct (strEq arg (lit "--completion-promise")).
    { destruct rest as [|[|c val] rest']; try reflexivity.
      cbn [List.length] in Hlen.
      specialize (IH rest' (setCompletionPromise (c :: val) o) parts ltac:(lia)).
      destruct (parseLoop rest' _ parts); [exact IH|].
      left. destruct IH as [IH|[IH1 IH2]]; [exact IH|].
      split; [exact IH1|]. rewrite IH2. discriminate. }
    destruct (strEq arg (lit "--model")).
    { destruct rest as [|[|c val] rest']; try reflexivity.
      cbn [List.length] in Hlen.
      exact (IH rest' (setModel (c :: val) o) parts ltac:(lia)). }
    destruct (strEq arg (lit "--no-commit")).
    { exact (IH rest (setAutoCommit false o) parts ltac:(lia)). }
    destruct (strEq arg (lit "--no-plugins")).
    { exact (IH rest (setDisablePlugins true o) parts ltac:(lia)). }
    destruct (startsWith arg (lit "-")); [reflexivity|].
    exact (IH rest o (parts ++ [arg]) ltac:(lia)).
Qed.

Lemma parseArgs_help args :
  parseArgs args
  = if asksHelpOrVersion args then ParseExit 0 else parseLoop args defaults [].
Proof.
  unfold parseArgs, asksHelpOrVersion.
  destruct (existsb (strEq (lit "--help")) args || existsb (strEq (lit "-h")) args);
    [reflexivity|].
  cbn [orb].
  now destruct (existsb (strEq (lit "--version")) args
                || existsb (strEq (lit "-v")) args).
Qed.

(** X22.  Options that come out of the argument loop are usable: the
    prompt is not empty, the completion marker is not empty, and no
    argument was [--help], [-h], [--version] or [-v]. *)
Theorem parsed_options_are_usable args o
  (H : parseArgs args = Parsed o) :
  prompt o <> [] /\ completionPromise o <> [] /\
  asksHelpOrVersion args = false.
Proof.
  rewrite parseArgs_help in H.
  destruct (asksHelpOrVersion args); [discriminate|].
  pose proof (parseLoop_inv args defaults [] (le_n _)) as Hi.
  rewrite H in Hi. destruct Hi as [[H1 H2]|[H1 H2]].
  - now split; [|split].
  - split; [exact H1|split; [|reflexivity]]. rewrite H2. vm_compute. discriminate.
Qed.

(** X23.  The argument loop ends the process with status 0 exactly for a
    help or version request and with status 1 for every other rejected
    command line; no other status is used. *)
Theorem rejected_command_line_status args c
  (H : parseArgs args = ParseExit c) :
  c = if asksHelpOrVersion args then 0%Z else 1%Z.
Proof.
  rewrite parseArgs_help in H.
  destruct (asksHelpOrVersion args); [now injection H|].
  pose proof (parseLoop_inv args defaults [] (le_n _)) as Hi.
  now rewrite H in Hi.
Qed.

Lemma word_not_flag arg f :
  isWord arg = true -> isWord f = false ->
  strEq arg f = false /\ strEq f arg = false.
Proof.
  intros H Hf. split.
  - destruct (strEq arg f) eqn:E; [|reflexivity].
    apply strEq_eq in E. congruence.
  - destruct (strEq f arg) eqn:E; [|reflexivity].
    apply strEq_eq in E. congruence.
Qed.

Lemma words_no_flag f args :
  isWord f = false ->
  forallb isWord args = true -> existsb (strEq f) args = false.
Proof.
  intros Hf. induction args as [|a args IH]; [reflexivity|].
  cbn [forallb existsb]. intros H. apply andb_true_iff in H as [Ha Hs].
  rewrite (proj2 (@word_not_flag a f Ha Hf)). now apply IH.
Qed.

Lemma parseLoop_words args : forall o parts,
  forallb isWord args = true ->
  parseLoop args o parts
  = match join (parts ++ args) with
    | [] => ParseExit 1
    | p => Parsed (setPrompt p o)
    end.
Proof.
  induction args as [|a args IH]; intros o parts H.
  - now rewrite app_nil_r.
  - cbn [forallb] in H. apply andb_true_iff in H as [Ha Hs].
    cbn [parseLoop].
    rewrite (proj1 (@word_not_flag a (lit "--max-iterations") Ha eq_refl)).
    rewrite (proj1 (@word_not_flag a (lit "--completion-promise") Ha eq_refl)).
    rewrite (proj1 (@word_not_flag a (lit "--model") Ha eq_refl)).
    rewrite (proj1 (@word_not_flag a (lit "--no-commit") Ha eq_refl)).
    rewrite (proj1 (@word_not_flag a (lit "--no-plugins") Ha eq_refl)).
    unfold isWord in Ha. apply negb_true_iff in Ha. rewrite Ha.
    rewrite IH by exact Hs. now rewrite <- app_assoc.
Qed.

(** X24.  A command line of words only — no argument begins with a
    dash — is one prompt: the words joined by single spaces, with every
    option at its default; it is rejected with status 1 only if that text
    is empty. *)
Theorem plain_words_become_the_prompt args
  (H : forallb isWord args = true) :
  parseArgs args
  = match join args with
    | [] => ParseExit 1
    | p => Parsed (setPrompt p defaults)
    end.
Proof.
  rewrite parseArgs_help. unfold asksHelpOrVersion.
  rewrite (@words_no_flag (lit "--help") args eq_refl H).
  rewrite (@words_no_flag (lit "-h") args eq_refl H).
  rewrite (@words_no_flag (lit "--version") args eq_refl H).
  rewrite (@words_no_flag (lit "-v") args eq_refl H). cbn [orb].
  now rewrite parseLoop_words.
Qed.








Lemma existsb_strEq p l : existsb (strEq p) l = true <-> In p l.
Proof.
  rewrite existsb_exists. split.
  - intros (x & Hx & E). apply strEq_eq in E. now subst.
  - intros H. exists p. split; [exact H|apply strEq_refl].
Qed.

Lemma setFrom_spec plugins : forall seen,
  NoDup (setFrom seen plugins) /\
  forall p, In p (setFrom seen plugins) <-> In p plugins /\ ~ In p seen.
Proof.
  induction plugins as [|q rest IH]; intros seen; cbn [setFrom].
  - split; [constructor|]. intros p. cbn. tauto.
  - destruct (existsb (strEq q) seen) eqn:E.
    + destruct (IH seen) as [Hn Hi]. split; [exact Hn|].
      apply existsb_strEq in E.
      intros p. rewrite Hi. cbn [In]. split; [tauto|].
      intros [[->|H] Hs]; tauto.
    + destruct (IH (q :: seen)) as [Hn Hi].
      assert (Hq : ~ In q seen).
      { intros H. apply existsb_strEq in H. congruence. }
      split.
      * constructor; [|exact Hn]. rewrite Hi. cbn [In]. tauto.
      * intros p. cbn [In]. rewrite Hi. cbn [In].
        destruct (list_eq_dec N.eq_dec q p) as [->|Hne]; tauto.
Qed.

(** X26.  The plugin list written for [--no-plugins] holds every plugin of
    the user's and of the project's configuration once, and never
    [ralph-wiggum]; nothing else is in it. *)
Theorem filtered_plugin_list userPlugins projectPlugins :
  NoDup (filtered userPlugins projectPlugins) /\
  forall p, In p (filtered userPlugins projectPlugins)
            <-> (In p userPlugins \/ In p projectPlugins)
                /\ p <> lit "ralph-wiggum".
Proof.
  unfold filtered.
  destruct (setFrom_spec (userPlugins ++ projectPlugins) []) as [Hn Hi].
  split; [now apply NoDup_filter|].
  intros p. rewrite filter_In, Hi, in_app_iff, negb_true_iff. cbn [In].
  split.
  - intros [[H _] E]. split; [exact H|]. intros ->. now rewrite strEq_refl in E.
  - intros [H Hne]. split; [tauto|].
    destruct (strEq p (lit "ralph-wiggum")) eqn:E; [|reflexivity].
    apply strEq_eq in E. contradiction.
Qed.

End CliFacts.

(** ** Instances of the further properties *)

Lemma ralph_start_creates_the_loop_witness :
  isActive (stored Sample.freshWorld) = false /\
  stored (snd (Plugin.ralph_start Scenario.now Sample.startAgain
                 Sample.freshWorld))
  = Some (Plugin.newState Scenario.now Sample.startAgain) /\
  completionPromise (Plugin.newState Scenario.now Sample.startAgain)
  = lit "COMPLETE".
Proof.
  split; [reflexivity|].
  pose proof (@ralph_start_creates_the_loop Scenario.now Sample.startAgain
                Sample.freshWorld eq_refl) as H.
  cbv zeta in H. split; [apply H|reflexivity].
Defined.

Lemma ralph_cancel_then_cancel_or_start_witness :
  stored Sample.runningWorld = Some Sample.runningState /\
  active Sample.runningState = true /\
  stateFile (fs (snd (Plugin.ralph_cancel Sample.runningWorld))) = None /\
  trace (snd (Plugin.ralph_cancel Sample.runningWorld)) = [EvUnlink].
Proof.
  split; [reflexivity|]. split; [reflexivity|].
  pose proof (@ralph_cancel_then_cancel_or_start Scenario.now Sample.startAgain
                Sample.runningWorld Sample.runningState eq_refl eq_refl) as H.
  cbv zeta in H. split; apply H.
Defined.

Lemma a_finished_run_leaves_no_state_witness :
  isActive (stored Sample.freshWorld) = false /\
  match fst (External.runRalphLoop asciiUpper Sample.threeIterations
               Scenario.now [Sample.quietRun; Scenario.completedRun]
               Sample.freshWorld) with
  | External.AwaitingAgent state =>
      stored (snd (External.runRalphLoop asciiUpper Sample.threeIterations
                     Scenario.now [Sample.quietRun; Scenario.completedRun]
                     Sample.freshWorld)) = Some state /\
      active state = true
  | _ =>
      stateFile (fs (snd (External.runRalphLoop asciiUpper
                            Sample.threeIterations Scenario.now
                            [Sample.quietRun; Scenario.completedRun]
                            Sample.freshWorld))) = None
  end.
Proof.
  split; [reflexivity|].
  exact (@LoopFacts.a_finished_run_leaves_no_state asciiUpper
           Sample.threeIterations Scenario.now
           [Sample.quietRun; Scenario.completedRun] Sample.freshWorld eq_refl).
Defined.


Lemma completion_ends_the_run_witness :
  isActive (stored Sample.freshWorld) = false /\
  checkCompletion asciiUpper
    (lit "All done. <promise>COMPLETE</promise>")
    (External.completionPromise Sample.threeIterations) = true /\
  fst (External.runRalphLoop asciiUpper Sample.threeIterations Scenario.now
         ([Sample.quietRun; Scenario.thrownRun]
            ++ Scenario.completedRun :: [Sample.quietRun])
         Sample.freshWorld) = External.Returned.
Proof.
  split; [reflexivity|]. split; [vm_compute; reflexivity|].
  apply (@LoopFacts.completion_ends_the_run asciiUpper Sample.threeIterations
           Scenario.now [Sample.quietRun; Scenario.thrownRun]
           Scenario.completedRun [Sample.quietRun] Sample.freshWorld
           (lit "All done. <promise>COMPLETE</promise>") []);
    [reflexivity|vm_compute; reflexivity|reflexivity|reflexivity
    |vm_compute; reflexivity|vm_compute; reflexivity|right; vm_compute; discriminate].
Defined.

Lemma placeholder_sentinel_stops_the_run_witness :
  fst (External.mainLoop asciiUpper Sample.threeIterations
         [Scenario.sentinelRun; Sample.quietRun]
         (External.initialState Sample.threeIterations Scenario.now)
         Sample.runningWorld) = External.Exit 1.
Proof.
  apply (@LoopFacts.placeholder_sentinel_stops_the_run asciiUpper
           Sample.threeIterations Scenario.sentinelRun [Sample.quietRun]
           (External.initialState Sample.threeIterations Scenario.now)
           Sample.runningWorld []
           (lit "Error: ralph-wiggum is not yet ready for use. This is a placeholder package.")
           0%Z);
    [reflexivity|reflexivity|].
  left. exists (lit "Error: "), []. reflexivity.
Defined.

Lemma thrown_passes_use_up_iterations_witness :
  (0 < External.maxIterations Sample.threeIterations)%Z /\
  isActive (stored Sample.freshWorld) = false /\
  fst (External.runRalphLoop asciiUpper Sample.threeIterations Scenario.now
         ([Scenario.thrownRun; Sample.quietRun; Scenario.thrownRun]
            ++ [Sample.quietRun])
         Sample.freshWorld) = External.Returned.
Proof.
  split; [reflexivity|]. split; [reflexivity|].
  apply (@LoopFacts.thrown_passes_use_up_iterations asciiUpper
           Sample.threeIterations Scenario.now
           [Scenario.thrownRun; Sample.quietRun; Scenario.thrownRun]
           [Sample.quietRun] Sample.freshWorld);
    [reflexivity|reflexivity|vm_compute; reflexivity|reflexivity].
Defined.

Lemma git_answers_do_not_matter_witness :
  map External.agent [Sample.quietRun; Sample.quietRun]
  = map External.agent [Scenario.quietRunGitDown; Sample.quietRun] /\
  fst (External.runRalphLoop asciiUpper Sample.threeIterations Scenario.now
         [Sample.quietRun; Sample.quietRun] Sample.freshWorld)
  = fst (External.runRalphLoop asciiUpper Sample.threeIterations Scenario.now
           [Scenario.quietRunGitDown; Sample.quietRun] Sample.freshWorld).
Proof.
  split; [reflexivity|].
  apply (@LoopFacts.git_answers_do_not_matter asciiUpper
           Sample.threeIterations Scenario.now
           [Sample.quietRun; Sample.quietRun]
           [Scenario.quietRunGitDown; Sample.quietRun] Sample.freshWorld
           eq_refl).
Defined.

Lemma no_commit_runs_no_git_witness :
  External.autoCommit Scenario.noCommit = false /\
  exists new,
    trace (snd (External.runRalphLoop asciiUpper Scenario.noCommit
                  Scenario.now [Sample.quietRun; Sample.quietRun]
                  Sample.freshWorld))
    = trace Sample.freshWorld ++ new /\
    existsb isGit new = false.
Proof.
  split; [reflexivity|].
  exact (@LoopFacts.no_commit_runs_no_git asciiUpper Scenario.noCommit
           Scenario.now [Sample.quietRun; Sample.quietRun] Sample.freshWorld
           eq_refl).
Defined.

Lemma completion_is_acted_on_at_the_next_idle_witness :
  stored (Plugin.host Sample.idleInstance) = Some Sample.runningState /\
  checkCompletion asciiUpper
    (Plugin.textContent Scenario.doneMessage)
    (completionPromise Sample.runningState) = true /\
  stateFile
    (fs (Plugin.host
           (snd (Plugin.event asciiUpper true (Plugin.SessionIdle None)
                   (snd (Plugin.event asciiUpper true
                           (Plugin.MessageUpdated (Some (lit "assistant"))
                              Scenario.doneMessage)
                           Sample.idleInstance)))))) = None.
Proof.
  split; [reflexivity|]. split; [vm_compute; reflexivity|].
  apply (@HostFacts.completion_is_acted_on_at_the_next_idle asciiUpper true
           Scenario.doneMessage None Sample.idleInstance Sample.runningState);
    [reflexivity|reflexivity|reflexivity|vm_compute; reflexivity].
Defined.


Lemma idle_handler_stalls_without_session_witness :
  Plugin.event asciiUpper false (Plugin.SessionIdle None) Sample.idleInstance
  = (Plugin.Finished, Sample.idleInstance).
Proof.
  apply (@HostFacts.idle_handler_stalls_without_session asciiUpper false
           None Sample.idleInstance Sample.runningState);
    reflexivity.
Defined.


Lemma escapeRegex_injective_witness :
  escapeRegex (lit "a.b*c") = escapeRegex (lit "a.b*c") /\
  lit "a.b*c" = lit "a.b*c".
Proof.
  split; [reflexivity|].
  apply (@escapeRegex_injective (lit "a.b*c") (lit "a.b*c")). reflexivity.
Defined.

Lemma completion_needs_both_tags_witness :
  checkCompletion asciiUpper (lit "<promise>COMPLETE</promise>")
    (lit "COMPLETE") = true /\
  (List.length (lit "COMPLETE") + 19
   <= List.length (lit "<promise>COMPLETE</promise>"))%nat.
Proof.
  split; [vm_compute; reflexivity|].
  apply (@completion_needs_both_tags asciiUpper
           (lit "<promise>COMPLETE</promise>") (lit "COMPLETE")).
  vm_compute. reflexivity.
Defined.

Lemma parsed_options_are_usable_witness :
  External.parseArgs [lit "Fix the bug"; lit "--no-commit"]
  = External.Parsed
      (External.setPrompt (lit "Fix the bug")
         (External.setAutoCommit false External.defaults)) /\
  External.prompt
    (External.setPrompt (lit "Fix the bug")
       (External.setAutoCommit false External.defaults)) <> [].
Proof.
  split; [reflexivity|].
  apply (@CliFacts.parsed_options_are_usable
           [lit "Fix the bug"; lit "--no-commit"]
           (External.setPrompt (lit "Fix the bug")
              (External.setAutoCommit false External.defaults))).
  reflexivity.
Defined.

Lemma rejected_command_line_status_witness :
  External.parseArgs [lit "task"; lit "--bogus"] = External.ParseExit 1 /\
  1%Z = if asksHelpOrVersion [lit "task"; lit "--bogus"] then 0%Z else 1%Z.
Proof.
  split; [reflexivity|].
  apply (@CliFacts.rejected_command_line_status [lit "task"; lit "--bogus"] 1%Z).
  reflexivity.
Defined.

Lemma plain_words_become_the_prompt_witness :
  forallb isWord [lit "Fix"; lit "the"; lit "bug"] = true /\
  External.parseArgs [lit "Fix"; lit "the"; lit "bug"]
  = External.Parsed (External.setPrompt (lit "Fix the bug") External.defaults).
Proof.
  split; [reflexivity|].
  apply (@CliFacts.plain_words_become_the_prompt
           [lit "Fix"; lit "the"; lit "bug"]).
  reflexivity.
Defined.

